(** * The blind-tasting notebook, as a data-processing pipeline

    A shallow embedding of the code cells of [blind_tasting_red_wine.ipynb]:
    the cleaner, the punctuation normalisation, the two-pass leakage filter,
    the label builder, the class selector, the descriptor reporter and the
    predictor.  The table [df] is a list of rows; a column operation of pandas
    is a map over the rows, and a cell that raises in Python makes the whole
    stage return [None]. *)

From Stdlib Require Import Ascii String OrdersEx.
From stdpp Require Import base decidable option list list_monad strings gmap sorting.

Local Open Scope string_scope.

(** ** Python strings

    Strings are byte strings (the UTF-8 encoding of the text).  The four
    characters the notebook looks at (space, comma, period, hyphen) are ASCII,
    and an ASCII byte never occurs inside a multi-byte UTF-8 sequence, so
    splitting and replacing on bytes agrees with Python's on code points. *)
Module PyStr.

(** [a.split(' ')]: cut at every single space; two spaces in a row, or a
    space at either end, give an empty token, and [''.split(' ')] is ['']. *)
Fixpoint split (s : string) : list string :=
  match s with
  | EmptyString => [EmptyString]
  | String c s' =>
      if Ascii.eqb c " "%char then EmptyString :: split s'
      else match split s' with
           | [] => [String c EmptyString]
           | t :: ts => String c t :: ts
           end
  end.

(** [' '.join(l)] *)
Fixpoint join (l : list string) : string :=
  match l with
  | [] => ""
  | x :: l' =>
      match l' with
      | [] => x
      | _ :: _ => x +:+ " " +:+ join l'
      end
  end.

(** The character class of the regular expression ['[\.\,\-]']. *)
Definition is_punct (c : ascii) : bool :=
  Ascii.eqb c "."%char || Ascii.eqb c ","%char || Ascii.eqb c "-"%char.

(** [re.sub('[\.\,\-]', ' ', s)]: every match is one character and is replaced
    by one space. *)
Fixpoint replace_punct (s : string) : string :=
  match s with
  | EmptyString => EmptyString
  | String c s' => String (if is_punct c then " "%char else c) (replace_punct s')
  end.

(** [c in s] for a one-character string [c]. *)
Fixpoint contains (c : ascii) (s : string) : bool :=
  match s with
  | EmptyString => false
  | String c' s' => Ascii.eqb c c' || contains c s'
  end.

Definition no_space (s : string) : Prop := contains " "%char s = false.
Definition no_punct (s : string) : Prop :=
  contains "."%char s = false ∧ contains ","%char s = false ∧
  contains "-"%char s = false.

#[global] Instance no_punct_dec s : Decision (no_punct s).
Proof. unfold no_punct. apply _. Defined.

End PyStr.

(** ** The description token filter (cell 7) *)
Module Leakage.
Import PyStr.

(** [set(b.split(' '))] *)
Definition tokens (b : string) : gset string := list_to_set (split b).

(** [' '.join(x for x in a.split(' ') if x not in S)] *)
Definition remove_set (S : gset string) (a : string) : string :=
  join (filter (λ x, x ∉ S) (split a)).

(** [' '.join(x for x in a.split(' ') if x not in set(b.split(' ')))] *)
Definition remove_tokens (a b : string) : string := remove_set (tokens b) a.

(** The two successive comprehensions applied to one row's values: the
    variety pass, then the province pass on its result. *)
Definition two_pass (d v p : string) : string :=
  remove_tokens (remove_tokens d v) p.

(** The single pass the specification mentions as a possible simplification:
    one exclusion set, the union of both token sets. *)
Definition single_pass_union (d v p : string) : string :=
  remove_set (tokens v ∪ tokens p) d.

End Leakage.

(** ** The working table [df] (cells 5, 7, 9 and 13) *)
Module Frame.
Import PyStr Leakage.

Section Table.

(** The numbers of the numeric columns (points, price).  The notebook never
    computes with them: only [drop_duplicates] looks at them, and only to
    compare them. *)
Context {num : Type} `{!EqDecision num}.

(** A cell of a column the notebook does not name: missing (NaN), a number,
    or a string. *)
Inductive cell :=
  | Null
  | Num (x : num)
  | Text (s : string).

#[global] Instance cell_eq_dec : EqDecision cell.
Proof. solve_decision. Defined.

(** A row of the table after [read_csv] and the renaming of the unlabeled
    index column to [id].  The three text columns the notebook works on hold
    a string or NaN ([None]); [others] are the remaining columns, in the
    order of the file. *)
Record row := Row {
  id : Z;
  description : option string;
  province : option string;
  variety : option string;
  others : list cell
}.

(** [df.columns.difference(['id'])]: the values of every column but [id]. *)
Definition key (r : row) :
    option string * option string * option string * list cell :=
  (description r, province r, variety r, others r).

(** [df.drop_duplicates(subset = ...)] with the default [keep='first']: a row
    is dropped when an earlier row has the same values in the subset (missing
    values compare equal to each other). *)
Fixpoint drop_duplicates_from
    (seen : list (option string * option string * option string * list cell))
    (df : list row) : list row :=
  match df with
  | [] => []
  | r :: df' =>
      if decide (key r ∈ seen) then drop_duplicates_from seen df'
      else r :: drop_duplicates_from (key r :: seen) df'
  end.

Definition drop_duplicates (df : list row) : list row :=
  drop_duplicates_from [] df.

Definition labelled (r : row) : Prop :=
  is_Some (province r) ∧ is_Some (variety r).

(** [df.dropna(subset=['province', 'variety'])] *)
Definition dropna (df : list row) : list row := filter labelled df.

(** Cell 5 after the load: the Cleaner. *)
Definition cleaner (raw : list row) : list row := dropna (drop_duplicates raw).

(** [df.replace('[\.\,\-]', ' ', regex = True)]: the substitution is made in
    every string cell of every column; numbers and missing values stay. *)
Definition replace_cell (c : cell) : cell :=
  match c with
  | Text s => Text (replace_punct s)
  | Null => Null
  | Num x => Num x
  end.

Definition replace_row (r : row) : row :=
  {| id := id r;
     description := replace_punct <$> description r;
     province := replace_punct <$> province r;
     variety := replace_punct <$> variety r;
     others := replace_cell <$> others r |}.

Definition df_replace (df : list row) : list row := replace_row <$> df.

(** [df['description'] = values]: the column is replaced, position by
    position.  The notebook always assigns one value per row. *)
Definition set_description (r : row) (d : string) : row :=
  {| id := id r; description := Some d; province := province r;
     variety := variety r; others := others r |}.

Definition assign_description (df : list row) (values : list string) : list row :=
  zip_with set_description df values.

(** One element of the comprehension: [a.split] and [b.split] raise on a
    missing value. *)
Definition filter_cell (ab : option string * option string) : option string :=
  a ← ab.1; b ← ab.2; Some (remove_tokens a b).

(** [df['description'] = [' '.join(...) for a, b in zip(df['description'], df[col])]] *)
Definition filter_description (col : row → option string) (df : list row) :
    option (list row) :=
  values ← mapM filter_cell (zip (description <$> df) (col <$> df));
  Some (assign_description df values).

(** The two comprehensions of cell 7, the variety column first. *)
Definition leakage_filter (df : list row) : option (list row) :=
  df1 ← filter_description variety df;
  filter_description province df1.

(** Cell 9.  A row of the table once the column [prov_var] exists. *)
Record lrow := LRow {
  base : row;
  prov_var : option string
}.

(** [+] on object columns: string concatenation; a missing operand gives a
    missing result. *)
Definition str_add (a b : option string) : option string :=
  x ← a; y ← b; Some (x +:+ y).

(** [df['prov_var'] = df['province'] + '_' + df['variety']], on columns that
    hold strings (dtype object), as they do once a row has a province and
    a variety.  ([read_csv] gives a column without any string the dtype
    float64, on which [+ '_'] raises whatever the rows.) *)
Definition label_of (r : row) : option string :=
  str_add (str_add (province r) (Some "_")) (variety r).

Definition label_builder (df : list row) : list lrow :=
  (λ r, {| base := r; prov_var := label_of r |}) <$> df.

(** Cell 13.  The three columns of [[['id', 'description', 'prov_var']]]. *)
Record srow := SRow {
  s_id : Z;
  s_description : option string;
  s_prov_var : option string
}.

Definition project (r : lrow) : srow :=
  {| s_id := id (base r); s_description := description (base r);
     s_prov_var := prov_var r |}.

(** [df.prov_var.isin(lst)]: a missing label is in no list of strings. *)
Definition isin (v : option string) (lst : list string) : bool :=
  match v with
  | Some s => bool_decide (s ∈ lst)
  | None => false
  end.

(** [df_select(lst)], with the table it reads passed as an argument. *)
Definition df_select (df : list lrow) (lst : list string) : list srow :=
  project <$> filter (λ r, isin (prov_var r) lst = true) df.

(** Cells 5 to 9 in sequence: the table [df] that [df_select] reads. *)
Definition prepare (raw : list row) : option (list lrow) :=
  df ← leakage_filter (df_replace (cleaner raw));
  Some (label_builder df).

End Table.

Arguments cell : clear implicits.
Arguments row : clear implicits.
Arguments lrow : clear implicits.

End Frame.

(** The curated lists of cell 11. *)
Module Curated.

Definition selected_red : list string :=
  ["California_Pinot Noir";
   "California_Cabernet Sauvignon";
   "Oregon_Pinot Noir";
   "Washington_Cabernet Sauvignon";
   "Washington_Syrah";
   "Piedmont_Nebbiolo";
   "Piedmont_Barbera";
   "Tuscany_Sangiovese";
   "Veneto_Corvina, Rondinella, Molinara";
   "Bordeaux_Bordeaux-style Red Blend";
   "Burgundy_Pinot Noir";
   "Beaujolais_Gamay";
   "Rh??ne Valley_Rh??ne-style Red Blend";
   "Douro_Portuguese Red";
   "Northern Spain_Tempranillo";
   "Mendoza Province_Malbec";
   "South Australia_Shiraz"].

End Curated.

(** ** Row-wise readings and auxiliary notions *)
Module Views.
Import PyStr Leakage Frame.

Section Rows.
Context {num : Type} `{!EqDecision num}.
Implicit Types (r : row num) (lr : lrow num) (tbl : list (lrow num)).

(** One description pass, read row by row. *)
Definition filter_row (col : row num → option string) r : option (row num) :=
  a ← description r; b ← col r; Some (set_description r (remove_tokens a b)).

(** Both passes on one row: its own description against its own variety,
    then the result against its own province. *)
Definition leak_row r : option (row num) :=
  d ← description r; v ← variety r; p ← province r;
  Some (set_description r (two_pass d v p)).

(** Cells 7 and 9 on one cleaned row. *)
Definition final_row r : option (lrow num) :=
  r' ← leak_row (replace_row r); Some (LRow r' (label_of r')).

(** The string of a cell, if it holds one. *)
Definition cell_text (c : cell num) : option string :=
  match c with
  | Text s => Some s
  | _ => None
  end.

(** Every string held by a row, whatever its column. *)
Definition row_strings r : list string :=
  option_list (description r) ++ option_list (province r) ++
  option_list (variety r) ++ omap cell_text (others r).


(** The same property when the empty pieces count as tokens too. *)
Definition leak_free lr : Prop :=
  ∀ d v p t,
    description (base lr) = Some d → variety (base lr) = Some v →
    province (base lr) = Some p →
    t ∈ split v ∨ t ∈ split p → t ∉ split d.

(** The labels occurring in a table, as a set. *)
Definition label_set tbl : gset string := list_to_set (omap prov_var tbl).
Definition selected_label_set (out : list srow) : gset string :=
  list_to_set (omap s_prov_var out).

End Rows.
End Views.

(** ** The Descriptor Reporter (cells 27 and 36) *)
Module Descriptors.

Section Ranking.

(** The weights are the floats of [clf.feature_log_prob_] or [clf.coef_].
    The code only compares them; [leb a b] stands for [a <= b], which on the
    finite floats of a fitted model is a total preorder. *)
Context {W : Type} (leb : W → W → bool).

(** [sorted(feature_map, key = lambda t: t[1], reverse = True)]: Python's
    sort is stable, also under [reverse], so entries of equal weight stay in
    the order of [feature_map].  An entry is put in front of the first entry
    whose weight is not larger than its own. *)
Fixpoint insert_desc (x : string * W) (l : list (string * W)) :
    list (string * W) :=
  match l with
  | [] => [x]
  | y :: l' => if leb y.2 x.2 then x :: y :: l' else y :: insert_desc x l'
  end.

Definition sorted_desc (l : list (string * W)) : list (string * W) :=
  foldr insert_desc [] l.

(** The loop body: [feature_map = list(zip(feature_names, weights))], then
    the names of [sorted(...)[:10]]. *)
Definition top_entries (feature_names : list string) (weights : list W) :
    list (string * W) :=
  take 10 (sorted_desc (zip feature_names weights)).

Definition top_descriptors (feature_names : list string) (weights : list W) :
    list string :=
  (top_entries feature_names weights).*1.

(** [for cl in class_map]: the label [cl[0]] and the descriptors ranked by
    row [cl[1]] of the weight matrix; indexing past the matrix raises. *)
Definition report (class_map : list (string * nat))
    (feature_names : list string) (matrix : list (list W)) :
    option (list (string * list string)) :=
  mapM (λ cl, w ← matrix !! cl.2; Some (cl.1, top_descriptors feature_names w))
    class_map.

(** [a] may stand before [b] in a descending list. *)
Definition desc (a b : string * W) : Prop := leb b.2 a.2 = true.

(** Equal weights. *)
Definition tied (w : W) (e : string * W) : Prop :=
  leb e.2 w && leb w e.2 = true.

#[global] Instance tied_dec w e : Decision (tied w e).
Proof. unfold tied. apply _. Defined.

End Ranking.
End Descriptors.

(** ** The Predictor (cell 29) *)
Module Predict.

Section Model.

(** The fitted vectorizer and classifier are values of the library:
    [vectorizer.transform] maps the list of texts to a feature matrix,
    [clf.predict] maps a feature matrix to the list of predicted codes. *)
Context {X : Type} (vectorizer_transform : list string → X)
  (clf_predict : X → list nat).

(** [result = list(clf.predict(vectorizer.transform(test_input)))] *)
Definition result (test_input : list string) : list nat :=
  clf_predict (vectorizer_transform test_input).

(** [list(c[0] for c in class_map if c[1] in result)] *)
Definition predictor (class_map : list (string * nat))
    (test_input : list string) : list string :=
  (filter (λ c, c.2 ∈ result test_input) class_map).*1.

(** The reading of the specification: the code-to-label mapping, and the
    labels of the predicted codes, one per input text, in input order. *)
Definition label_of_code (class_map : list (string * nat)) (code : nat) :
    option string :=
  (λ ic : nat * (string * nat), ic.2.1) <$> list_find (λ c, c.2 = code) class_map.

Definition predictor_per_input (class_map : list (string * nat))
    (test_input : list string) : option (list string) :=
  mapM (label_of_code class_map) (result test_input).

End Model.
End Predict.

(** ** The other curated lists and the three training tables (cells 11, 13) *)
Module Training.
Import Frame Curated.

Definition selected_white : list string :=
  ["California_Chardonnay";
   "Oregon_Chardonnay";
   "Oregon_Pinot Gris";
   "Washington_Riesling";
   "Mosel_Riesling";
   "Burgundy_Chardonnay";
   "Bordeaux_Bordeaux-style White Blend";
   "Loire Valley_Sauvignon Blanc";
   "Alsace_Riesling";
   "Alsace_Gew??rztraminer";
   "Alsace_Pinot Gris";
   "Northeastern Italy_Pinot Grigio";
   "Marlborough_Sauvignon Blanc"].

Definition selected_spark : list string :=
  ["Champagne_Champagne Blend";
   "California_Sparkling Blend";
   "Veneto_Glera";
   "Catalonia_Sparkling Blend"].

Section Tables.
Context {num : Type} `{!EqDecision num}.

(** [df_red = df_select(selected_red)] and its two siblings. *)
Definition df_red (df : list (lrow num)) : list srow := df_select df selected_red.
Definition df_white (df : list (lrow num)) : list srow := df_select df selected_white.
Definition df_spark (df : list (lrow num)) : list srow := df_select df selected_spark.

End Tables.
End Training.

(** ** Class codes and the class map (cell 20) *)
Module Coding.
Import Frame.

(** [pd.Categorical(values)] takes as categories the distinct values that are
    not missing, in sorted order; strings are ordered as Python orders them,
    character by character (on UTF-8 bytes this is the order of the code
    points).  A value is put at its place in the sorted list unless it is
    there already. *)
Fixpoint insert_category (l : string) (cats : list string) : list string :=
  match cats with
  | [] => [l]
  | c :: cs =>
      match String_as_OT.compare l c with
      | Eq => cats
      | Lt => l :: cats
      | Gt => c :: insert_category l cs
      end
  end.

Definition categories (values : list (option string)) : list string :=
  foldr insert_category [] (omap (λ v, v) values).

(** [.codes]: the position of the value among the categories, [-1] for a
    missing value. *)
Definition code_of (cats : list string) (v : option string) : Z :=
  match v with
  | None => (-1)%Z
  | Some l =>
      match list_find (λ c, c = l) cats with
      | Some ic => Z.of_nat ic.1
      | None => (-1)%Z
      end
  end.

Definition categorical_codes (values : list (option string)) : list Z :=
  code_of (categories values) <$> values.

(** A row of [df_red] once the column [prov_var_code] exists. *)
Record crow := CRow {
  c_base : srow;
  prov_var_code : Z
}.

(** [df_red['prov_var_code'] = pd.Categorical(df_red.prov_var).codes] *)
Definition add_codes (df_red : list srow) : list crow :=
  zip_with CRow df_red (categorical_codes (s_prov_var <$> df_red)).

(** [drop_duplicates(subset)], [keep='first'], for any table and subset. *)
Fixpoint drop_duplicates_on {A K : Type} `{!EqDecision K} (key : A → K)
    (seen : list K) (l : list A) : list A :=
  match l with
  | [] => []
  | x :: l' =>
      if decide (key x ∈ seen) then drop_duplicates_on key seen l'
      else x :: drop_duplicates_on key (key x :: seen) l'
  end.

Definition class_key (r : crow) : option string * Z :=
  (s_prov_var (c_base r), prov_var_code r).

(** [df_red.drop_duplicates(['prov_var', 'prov_var_code'])[['prov_var',
    'prov_var_code']].values.tolist()] *)
Definition class_map (df : list crow) : list (option string * Z) :=
  class_key <$> drop_duplicates_on class_key [] df.

(** [X = df_red['description']] and [y = df_red['prov_var_code']] *)
Definition X (df : list crow) : list (option string) :=
  (λ r, s_description (c_base r)) <$> df.
Definition y (df : list crow) : list Z := prov_var_code <$> df.

(** The entries of a class map whose label is a string and whose code is
    not negative, as the loops of cells 27, 29 and 36 use them: [c[0]] a
    label, [c[1]] a row index or a predicted code. *)
Definition entries (cm : list (option string * Z)) : list (string * nat) :=
  omap (λ e : option string * Z,
          l ← e.1; if decide (0 ≤ e.2)%Z then Some (l, Z.to_nat e.2) else None)
    cm.

End Coding.

(** ** Sample data *)
Module Samples.
Import Frame.

(** A small raw table.  The unnamed columns are country, points, price and
    winery.  Rows 1 and 2 differ in [id] only; row 3 has no province. *)
Definition raw_ex : list (row Z) :=
  [ Row 0 (Some "Corvina.") (Some "Veneto")
      (Some "Corvina, Rondinella, Molinara")
      [Text "Italy"; Num 87%Z; Null; Text "Allegrini"];
    Row 1 (Some "Silky Pinot-Noir, with cola notes.") (Some "California")
      (Some "Pinot Noir")
      [Text "US"; Num 90%Z; Num 45%Z; Text "Sea-Smoke"];
    Row 2 (Some "Silky Pinot-Noir, with cola notes.") (Some "California")
      (Some "Pinot Noir")
      [Text "US"; Num 90%Z; Num 45%Z; Text "Sea-Smoke"];
    Row 3 (Some "Ripe and round.") None (Some "Pinot Noir")
      [Text "US"; Num 85%Z; Null; Null];
    Row 4 (Some "A smoky Washington Syrah; Pinot-like finish.")
      (Some "Washington") (Some "Syrah")
      [Text "US"; Num 91%Z; Num 30%Z; Text "K Vintners"] ].

Definition row_corvina : lrow Z :=
  LRow (Row 0 (Some "") (Some "Veneto") (Some "Corvina  Rondinella  Molinara")
          [Text "Italy"; Num 87%Z; Null; Text "Allegrini"])
    (Some "Veneto_Corvina  Rondinella  Molinara").

Definition row_pinot : lrow Z :=
  LRow (Row 1 (Some "Silky  with cola notes ") (Some "California")
          (Some "Pinot Noir")
          [Text "US"; Num 90%Z; Num 45%Z; Text "Sea Smoke"])
    (Some "California_Pinot Noir").

Definition row_syrah : lrow Z :=
  LRow (Row 4 (Some "A smoky Syrah; Pinot like finish ") (Some "Washington")
          (Some "Syrah")
          [Text "US"; Num 91%Z; Num 30%Z; Text "K Vintners"])
    (Some "Washington_Syrah").

Definition tbl_ex : list (lrow Z) := [row_corvina; row_pinot; row_syrah].

(** The class map printed by cell 20. *)
Definition class_map_red : list (string * nat) :=
  [ ("Douro_Portuguese Red", 4); ("Oregon_Pinot Noir", 7);
    ("California_Cabernet Sauvignon", 2); ("Mendoza Province_Malbec", 5);
    ("California_Pinot Noir", 3); ("Beaujolais_Gamay", 0);
    ("Tuscany_Sangiovese", 11); ("Piedmont_Nebbiolo", 9);
    ("Piedmont_Barbera", 8); ("South Australia_Shiraz", 10);
    ("Burgundy_Pinot Noir", 1); ("Northern Spain_Tempranillo", 6);
    ("Washington_Syrah", 13); ("Washington_Cabernet Sauvignon", 12) ]%nat.

(** The two sentences of [test_input]. *)
Definition bright : string :=
  "Bright strawberry and cherry aromas and flavors. Light wine with a tart finish.".
Definition dark : string :=
  "Dark fruit flavors with notes of smoked meat, dried hers and earth.".

(** A stand-in for the fitted vectorizer and classifier that gives the two
    sentences the codes the recorded output of cell 29 shows for them: 3 for
    the first, 13 for the second. *)
Definition stub_transform (texts : list string) : list string := texts.
Definition stub_predict (X : list string) : list nat :=
  (λ t, if String.prefix "Dark" t then 13 else 3)%nat <$> X.

(** A vocabulary of 12 entries and the weights of two classes (log
    probabilities, in hundredths). *)
Definition names_ex : list string :=
  ["cola"; "raspberry"; "silky"; "cherries"; "dry"; "texture"; "light";
   "nose"; "vineyard"; "cranberry"; "tart"; "cherry fruit"].

Definition matrix_ex : list (list Z) :=
  [ [-610; -622; -630; -641; -655; -655; -660; -671; -680; -690; -720; -750];
    [-790; -650; -800; -810; -700; -820; -612; -702; -640; -830; -625; -601]
  ]%Z.

Definition class_map_ex : list (string * nat) :=
  [("Oregon_Pinot Noir", 1); ("California_Pinot Noir", 0)]%nat.

End Samples.

(** ** More sample data *)
Module MoreSamples.
Import Frame Samples.

(** A small selection: three classes, one of them twice. *)
Definition small_red : list srow :=
  [ SRow 1 (Some "Silky  with cola notes ") (Some "California_Pinot Noir");
    SRow 4 (Some "A smoky Syrah; Pinot like finish ") (Some "Washington_Syrah");
    SRow 7 (Some "Bright cherry and tea") (Some "California_Pinot Noir");
    SRow 9 (Some "Fruity and light") (Some "Beaujolais_Gamay") ].

(** A selection in which the 14 classes first appear in the order of the
    class map printed by cell 20, the first two once more at the end. *)
Definition full_red : list srow :=
  imap (λ i c, SRow (Z.of_nat i) (Some "ripe fruit") (Some c.1))
    (class_map_red ++ take 2 class_map_red).

(** Two rows with the same province and variety. *)
Definition pinot_a : row Z :=
  Row 1 (Some "Silky") (Some "California") (Some "Pinot Noir") [].
Definition pinot_b : row Z :=
  Row 8 (Some "Earthy") (Some "California") (Some "Pinot Noir") [Num 88%Z].

(** The first of the two rows of [raw_ex] that differ in [id] only. *)
Definition pinot_first : row Z :=
  Row 1 (Some "Silky Pinot-Noir, with cola notes.") (Some "California")
    (Some "Pinot Noir")
    [Text "US"; Num 90%Z; Num 45%Z; Text "Sea-Smoke"].

(** A table the Cleaner has nothing to do on. *)
Definition clean_ex : list (row Z) := [pinot_a; Row 4 (Some "Smoky") (Some "Washington") (Some "Syrah") []].

(** A raw table with a row that has a province and a variety but no
    description. *)
Definition raw_nodesc : list (row Z) :=
  [pinot_a; Row 5 None (Some "Veneto") (Some "Corvina") [Num 87%Z]].

(** A class map with a code beyond the two rows of [matrix_ex]. *)
Definition class_map_bad : list (string * nat) :=
  [("Oregon_Pinot Noir", 1); ("Washington_Syrah", 2)]%nat.

End MoreSamples.

(** * Properties *)

(** ** Lists *)
Module ListFacts.

Lemma mapM_cons {A B} (f : A → option B) x l :
  mapM f (x :: l) = y ← f x; k ← mapM f l; Some (y :: k).
Proof. done. Qed.

Lemma mapM_bind {A B C} (f : A → option B) (g : B → option C) (l : list A) :
  mapM f l ≫= mapM g = mapM (λ x, f x ≫= g) l.
Proof.
  induction l as [|x l IH]; [done|].
  rewrite !mapM_cons, <-IH.
  destruct (f x) as [y|]; [|done].
  destruct (mapM f l) as [k|]; [done|]. cbn. by destruct (g y).
Qed.

Lemma filter_none {A} (P : A → Prop) `{!∀ x, Decision (P x)} (l : list A) :
  (∀ y, y ∈ l → ¬ P y) → filter P l = [].
Proof.
  induction l as [|a l IH]; intros Hl; [done|].
  rewrite filter_cons_False by (apply Hl; by left).
  apply IH. intros y Hy. apply Hl. by right.
Qed.

Lemma NoDup_fmap_count {A B} `{!EqDecision B} (f : A → B) (l : list A) x :
  NoDup (f <$> l) → x ∈ l → length (filter (λ y, f y = f x) l) = 1.
Proof.
  induction l as [|a l IH]; [by intros _ ?%elem_of_nil|].
  rewrite fmap_cons. intros [Ha Hl]%NoDup_cons Hx.
  destruct (decide (f a = f x)) as [Heq|Hne].
  - rewrite filter_cons_True by done. simpl. f_equal.
    rewrite filter_none; [done|]. intros y Hy Hfy. apply Ha.
    rewrite Heq, <-Hfy. by apply list_elem_of_fmap_2.
  - rewrite filter_cons_False by done.
    apply elem_of_cons in Hx as [->|Hx]; [done|]. by apply IH.
Qed.

Lemma list_filter_iff_elem {A} (P Q : A → Prop)
    `{!∀ x, Decision (P x), !∀ x, Decision (Q x)} (l : list A) :
  (∀ x, x ∈ l → P x ↔ Q x) → filter P l = filter Q l.
Proof.
  induction l as [|a l IH]; intros Hl; [done|].
  rewrite !filter_cons, IH by (intros x Hx; apply Hl; by right).
  destruct (decide (P a)) as [HP|HP], (decide (Q a)) as [HQ|HQ]; try done;
    destruct (Hl a); [by left| |by left|]; tauto.
Qed.


End ListFacts.

(** ** Splitting and joining *)
Module PyStrFacts.
Import PyStr.

Lemma split_not_nil s : split s ≠ [].
Proof.
  destruct s as [|c s]; simpl; [done|].
  destruct (Ascii.eqb c " "); [done|]. by destruct (split s).
Qed.

Lemma contains_cons c c' s :
  contains c (String c' s) = false ↔ Ascii.eqb c c' = false ∧ contains c s = false.
Proof. simpl. apply orb_false_iff. Qed.

Lemma split_no_space s : Forall no_space (split s).
Proof.
  induction s as [|c s IH]; simpl.
  - by repeat constructor.
  - destruct (Ascii.eqb c " ") eqn:Hc.
    + by constructor.
    + destruct (split s) as [|t ts]; inversion_clear IH.
      * repeat constructor. apply contains_cons.
        by rewrite Ascii.eqb_sym.
      * constructor; [|done]. apply contains_cons.
        by rewrite Ascii.eqb_sym.
Qed.

Lemma split_app_space x s :
  no_space x → split (x +:+ " " +:+ s) = x :: split s.
Proof.
  induction x as [|c x IH]; intros Hx; simpl; [done|].
  apply contains_cons in Hx as [Hc Hx].
  rewrite Ascii.eqb_sym in Hc. rewrite Hc.
  by rewrite (IH Hx).
Qed.

Lemma split_atom x : no_space x → split x = [x].
Proof.
  induction x as [|c x IH]; intros Hx; simpl; [done|].
  apply contains_cons in Hx as [Hc Hx].
  rewrite Ascii.eqb_sym in Hc. by rewrite Hc, (IH Hx).
Qed.

(** Joining space-free tokens and splitting again gives the tokens back,
    except for the empty list: [' '.join([])] is [''], whose split is ['']. *)
Lemma split_join l : l ≠ [] → Forall no_space l → split (join l) = l.
Proof.
  induction l as [|x l IH]; intros Hne Hl; [done|].
  inversion_clear Hl as [|? ? Hx Hl'].
  destruct l as [|y l]; simpl.
  - by apply split_atom.
  - rewrite split_app_space by done. f_equal. by apply IH.
Qed.

Lemma join_split s : join (split s) = s.
Proof.
  induction s as [|c s IH]; simpl; [done|].
  destruct (Ascii.eqb c " ") eqn:Hc.
  - apply Ascii.eqb_eq in Hc as ->.
    pose proof (split_not_nil s) as Hne.
    destruct (split s) as [|t ts]; [done|]. by rewrite <-IH.
  - destruct (split s) as [|t ts] eqn:Hs; [by destruct (split_not_nil s)|].
    rewrite <-IH. by destruct ts.
Qed.

Lemma split_empty : split "" = [""].
Proof. done. Qed.

Lemma join_nil_iff l : Forall no_space l → join l = "" ↔ l = [] ∨ l = [""].
Proof.
  intros Hl. split.
  - destruct l as [|x [|y l]]; simpl; [by left|intros ->; by right|].
    destruct x; discriminate.
  - by intros [-> | ->].
Qed.

Lemma append_cons x (a b : string) : String x a +:+ b = String x (a +:+ b).
Proof. done. Qed.

Lemma append_assoc (a b c : string) : (a +:+ b) +:+ c = a +:+ b +:+ c.
Proof.
  induction a as [|x a IH]; [done|]. rewrite !append_cons. by f_equal.
Qed.

Lemma contains_app c a b : contains c (a +:+ b) = contains c a || contains c b.
Proof.
  induction a as [|x a IH]; [done|]. rewrite append_cons. simpl.
  by rewrite IH, orb_assoc.
Qed.

Lemma replace_punct_clean c s :
  is_punct c = true → contains c (replace_punct s) = false.
Proof.
  intros Hc. induction s as [|x s IH]; simpl; [done|].
  rewrite IH, orb_false_r.
  destruct (is_punct x) eqn:Hx.
  - apply Ascii.eqb_neq. by intros ->.
  - apply Ascii.eqb_neq. intros ->. by rewrite Hc in Hx.
Qed.

Lemma replace_punct_no_punct s : no_punct (replace_punct s).
Proof. repeat split; by apply replace_punct_clean. Qed.

Lemma no_punct_app a b : no_punct a → no_punct b → no_punct (a +:+ b).
Proof.
  unfold no_punct. rewrite !contains_app.
  intros (-> & -> & ->) (-> & -> & ->). done.
Qed.

(** Characters other than the three of the class are kept, and the length
    never changes. *)
Lemma replace_punct_length s : String.length (replace_punct s) = String.length s.
Proof. induction s as [|x s IH]; simpl; [done|]. by rewrite IH. Qed.

Lemma replace_punct_id s : no_punct s → replace_punct s = s.
Proof.
  induction s as [|x s IH]; [done|].
  intros (H1 & H2 & H3). apply contains_cons in H1 as [H1 H1'].
  apply contains_cons in H2 as [H2 H2']. apply contains_cons in H3 as [H3 H3'].
  simpl. rewrite IH by done. unfold is_punct.
  by rewrite (Ascii.eqb_sym x "."), H1, (Ascii.eqb_sym x ","), H2,
    (Ascii.eqb_sym x "-"), H3.
Qed.

End PyStrFacts.

(** ** The token filter on one description *)
Module LeakageFacts.
Import ListFacts PyStr Leakage PyStrFacts.

Lemma remove_set_split S a :
  filter (λ x, x ∉ S) (split a) ≠ [] →
  split (remove_set S a) = filter (λ x, x ∉ S) (split a).
Proof.
  intros Hne. unfold remove_set. apply split_join; [done|].
  apply Forall_forall. intros x [_ Hx]%list_elem_of_filter.
  by apply (proj1 (Forall_forall _ _) (split_no_space a)).
Qed.

Lemma remove_set_empty S : remove_set S "" = "".
Proof.
  unfold remove_set. rewrite split_empty.
  rewrite filter_cons, filter_nil. by case_decide.
Qed.

Lemma filter_union (S1 S2 : gset string) (l : list string) :
  filter (λ x, x ∉ S1 ∪ S2) l = filter (λ x, x ∉ S2) (filter (λ x, x ∉ S1) l).
Proof.
  rewrite list_filter_filter. apply list_filter_iff. intros x.
  rewrite not_elem_of_union. tauto.
Qed.

(** Two passes with the sets [S1] then [S2] remove exactly the tokens of
    [S1 ∪ S2]. *)
Lemma remove_set_twice S1 S2 a :
  remove_set S2 (remove_set S1 a) = remove_set (S1 ∪ S2) a.
Proof.
  destruct (filter (λ x, x ∉ S1) (split a)) as [|t ts] eqn:Hf.
  - unfold remove_set at 2 3. rewrite filter_union, Hf. simpl.
    apply remove_set_empty.
  - unfold remove_set at 1 3. rewrite filter_union.
    rewrite remove_set_split by (by rewrite Hf). done.
Qed.


End LeakageFacts.

(** ** The table stages *)
Module FrameFacts.
Import ListFacts PyStr Leakage PyStrFacts LeakageFacts Frame Views.

Section Stages.
Context {num : Type} `{!EqDecision num}.
Implicit Types (r : row num) (df raw : list (row num)).

Lemma filter_description_rowwise col df :
  filter_description col df = mapM (filter_row col) df.
Proof.
  unfold filter_description.
  induction df as [|r df IH]; [done|].
  rewrite !fmap_cons. cbn [zip_with]. rewrite !mapM_cons, <-IH.
  generalize (mapM filter_cell (zip (description <$> df) (col <$> df))).
  intros m. unfold filter_cell, filter_row. cbn [fst snd].
  by destruct (description r), (col r), m.
Qed.

Lemma filter_row_twice r :
  filter_row variety r ≫= filter_row province = leak_row r.
Proof.
  unfold filter_row, leak_row.
  destruct (description r) as [d|]; [|done].
  destruct (variety r) as [v|]; [|done]. simpl.
  by destruct (province r).
Qed.

Lemma leakage_filter_rowwise df : leakage_filter df = mapM leak_row df.
Proof.
  unfold leakage_filter. rewrite filter_description_rowwise.
  erewrite (mapM_ext leak_row) by (intros; symmetry; apply filter_row_twice).
  rewrite <-mapM_bind. destruct (mapM (filter_row variety) df); [|done].
  apply filter_description_rowwise.
Qed.

Lemma prepare_rowwise raw : prepare raw = mapM final_row (cleaner raw).
Proof.
  unfold prepare, df_replace, label_builder.
  rewrite leakage_filter_rowwise.
  generalize (cleaner raw). intros df.
  induction df as [|r df IH]; [done|].
  rewrite !fmap_cons, !mapM_cons, <-IH. unfold final_row.
  destruct (leak_row (replace_row r)) as [r'|]; [|done].
  by destruct (mapM leak_row (replace_row <$> df)).
Qed.

(** *** The Cleaner *)

Lemma drop_duplicates_from_sublist seen df :
  drop_duplicates_from seen df `sublist_of` df.
Proof.
  revert seen. induction df as [|r df IH]; intros seen; simpl; [done|].
  case_decide; [by apply sublist_cons|by apply sublist_skip].
Qed.

Lemma drop_duplicates_from_fresh seen df r :
  r ∈ drop_duplicates_from seen df → key r ∉ seen.
Proof.
  revert seen. induction df as [|r0 df IH]; intros seen; simpl.
  - by intros ?%elem_of_nil.
  - case_decide as Hseen; [by apply IH|].
    intros [->|Hr]%elem_of_cons; [done|].
    apply IH in Hr. by intros ?; apply Hr; right.
Qed.

Lemma drop_duplicates_from_NoDup seen df :
  NoDup (key <$> drop_duplicates_from seen df).
Proof.
  revert seen. induction df as [|r df IH]; intros seen; simpl.
  - constructor.
  - case_decide as Hseen; [by apply IH|].
    rewrite fmap_cons. constructor; [|by apply IH].
    intros (r' & Hk & Hr')%list_elem_of_fmap.
    apply drop_duplicates_from_fresh in Hr'. apply Hr'. rewrite <-Hk. by left.
Qed.

Lemma drop_duplicates_from_complete seen df r :
  r ∈ df → key r ∉ seen →
  ∃ r', r' ∈ drop_duplicates_from seen df ∧ key r' = key r.
Proof.
  revert seen. induction df as [|r0 df IH]; intros seen; simpl.
  - by intros ?%elem_of_nil.
  - intros [->|Hr]%elem_of_cons Hfresh.
    + rewrite decide_False by done. exists r0. split; [by left|done].
    + case_decide as Hseen; [by apply IH|].
      destruct (decide (key r = key r0)) as [Heq|Hne].
      * exists r0. split; [by left|done].
      * destruct (IH (key r0 :: seen) Hr) as (r' & Hr' & Hk).
        { by intros [?|?]%elem_of_cons. }
        exists r'. split; [by right|done].
Qed.

Lemma cleaner_labelled raw r : r ∈ cleaner raw → labelled r.
Proof. unfold cleaner, dropna. by intros [? _]%list_elem_of_filter. Qed.

Lemma cleaner_sublist raw : cleaner raw `sublist_of` raw.
Proof.
  unfold cleaner, dropna, drop_duplicates. etrans; [apply sublist_filter|].
  apply drop_duplicates_from_sublist.
Qed.

Lemma cleaner_NoDup raw : NoDup (key <$> cleaner raw).
Proof.
  unfold cleaner, dropna, drop_duplicates.
  eapply sublist_NoDup; [apply (drop_duplicates_from_NoDup [] raw)|].
  apply fmap_sublist, sublist_filter.
Qed.

Lemma labelled_key r r' : key r = key r' → labelled r → labelled r'.
Proof.
  unfold key, labelled. intros Hk. injection Hk as _ Hp Hv _.
  by rewrite Hp, Hv.
Qed.

Lemma cleaner_complete raw r :
  r ∈ raw → labelled r → ∃ r', r' ∈ cleaner raw ∧ key r' = key r.
Proof.
  intros Hr Hlab.
  destruct (drop_duplicates_from_complete [] raw r Hr) as (r' & Hr' & Hk).
  { apply not_elem_of_nil. }
  exists r'. split; [|done].
  apply list_elem_of_filter. split; [|done].
  symmetry in Hk. by apply (labelled_key r r').
Qed.

(** *** What a row of the prepared table looks like *)

Lemma final_row_Some r0 (r : lrow num) :
  final_row r0 = Some r ↔
  ∃ d p v, description r0 = Some d ∧ province r0 = Some p ∧
    variety r0 = Some v ∧
    r = LRow
          (Row (id r0)
             (Some (two_pass (replace_punct d) (replace_punct v) (replace_punct p)))
             (Some (replace_punct p)) (Some (replace_punct v))
             (replace_cell <$> others r0))
          (Some (replace_punct p +:+ "_" +:+ replace_punct v)).
Proof.
  unfold final_row, leak_row, label_of, str_add. destruct r0 as [i d p v o]. simpl.
  destruct d as [d|], v as [v|], p as [p|]; simpl;
    try (split; [done|by intros (?&?&?&?&?&?&?)]).
  rewrite append_assoc. split.
  - intros [= <-]. by exists d, p, v.
  - by intros (?&?&?&[= <-]&[= <-]&[= <-]&->).
Qed.

Lemma prepare_lookup raw (df : list (lrow num)) i :
  prepare raw = Some df →
  (∀ lr, df !! i = Some lr →
         ∃ r0, cleaner raw !! i = Some r0 ∧ final_row r0 = Some lr) ∧
  (∀ r0, cleaner raw !! i = Some r0 →
         ∃ lr, df !! i = Some lr ∧ final_row r0 = Some lr).
Proof.
  rewrite prepare_rowwise. intros HF%mapM_Some. split.
  - intros lr Hr. by apply (Forall2_lookup_r _ _ _ _ _ HF).
  - intros r0 Hr0. by apply (Forall2_lookup_l _ _ _ _ _ HF).
Qed.

Lemma prepare_elem raw (df : list (lrow num)) (lr : lrow num) :
  prepare raw = Some df → lr ∈ df →
  ∃ r0, r0 ∈ cleaner raw ∧ final_row r0 = Some lr.
Proof.
  intros Hp [i Hi]%list_elem_of_lookup.
  destruct (proj1 (prepare_lookup raw df i Hp) lr Hi) as (r0 & Hr0 & Hf).
  exists r0. split; [|done]. apply list_elem_of_lookup. by exists i.
Qed.

Lemma prepare_length raw (df : list (lrow num)) :
  prepare raw = Some df → length df = length (cleaner raw).
Proof. rewrite prepare_rowwise. intros ?%length_mapM. done. Qed.

(** The run raises exactly when a cleaned row has no description. *)
Lemma prepare_is_Some raw :
  is_Some (prepare raw) ↔ Forall (λ r, is_Some (description r)) (cleaner raw).
Proof.
  rewrite prepare_rowwise, mapM_is_Some. split.
  - intros HF. apply Forall_forall. intros r0 Hr0.
    destruct (proj1 (Forall_forall _ _) HF r0 Hr0) as [r Hr].
    apply final_row_Some in Hr as (d & _ & _ & -> & _). by eexists.
  - intros HF. apply Forall_forall. intros r0 Hr0.
    destruct (proj1 (Forall_forall _ _) HF r0 Hr0) as [d Hd].
    destruct (cleaner_labelled raw r0 Hr0) as [[p Hp] [v Hv]].
    eexists. apply final_row_Some. by exists d, p, v.
Qed.

(** *** Normalised strings *)

Lemma option_list_fmap {A B} (f : A → B) (o : option A) :
  option_list (f <$> o) = f <$> option_list o.
Proof. by destruct o. Qed.

Lemma row_strings_replace r :
  row_strings (replace_row r) = replace_punct <$> row_strings r.
Proof.
  unfold row_strings. simpl. rewrite !fmap_app, !option_list_fmap.
  do 3 f_equal. induction (others r) as [|c o IH]; [done|].
  destruct c; cbn; by rewrite IH.
Qed.

Lemma row_strings_no_punct r : Forall no_punct (row_strings (replace_row r)).
Proof.
  rewrite row_strings_replace. apply Forall_fmap, Forall_true.
  intros s. apply replace_punct_no_punct.
Qed.

End Stages.
End FrameFacts.

(** * The Leakage Filter *)
Module LeakageFilter.
Import ListFacts PyStr Leakage PyStrFacts LeakageFacts Frame Views FrameFacts.

(** The only way a label token can be found again among the tokens of a
    filtered description: everything was removed, the result is the empty
    string, and its one token is the empty token. *)
Lemma two_pass_tokens d v p t :
  t ∈ split (two_pass d v p) → t ∈ split v ∨ t ∈ split p →
  t = "" ∧ two_pass d v p = "".
Proof.
  unfold two_pass, remove_tokens. rewrite remove_set_twice.
  destruct (filter (λ x, x ∉ tokens v ∪ tokens p) (split d)) as [|x l] eqn:Hf.
  - unfold remove_set. rewrite Hf. simpl.
    by intros ->%list_elem_of_singleton _.
  - rewrite remove_set_split by (by rewrite Hf).
    intros [Ht _]%list_elem_of_filter Hvp. destruct Ht.
    unfold tokens. rewrite elem_of_union, !elem_of_list_to_set. done.
Qed.

(** C9.  For every description and every two token sets, the two successive
    split-filter-join passes give exactly the description that one pass
    removing the union of the two sets gives, and the passes commute; so the
    notebook's variety-then-province filter equals the single pass over the
    union of the row's variety and province tokens. *)
Theorem two_passes_equal_union_pass (d : string) (V P : gset string) :
  remove_set P (remove_set V d) = remove_set (V ∪ P) d ∧
  remove_set V (remove_set P d) = remove_set P (remove_set V d) ∧
  (∀ v p, two_pass d v p = single_pass_union d v p ∧
          remove_tokens (remove_tokens d p) v = two_pass d v p).
Proof.
  split; [apply remove_set_twice|]. split.
  - rewrite !remove_set_twice. f_equal. apply (comm_L (∪)).
  - intros v p. unfold two_pass, single_pass_union, remove_tokens.
    rewrite !remove_set_twice. split; [done|]. f_equal. apply (comm_L (∪)).
Qed.

Section Rows.
Context {num : Type} `{!EqDecision num}.
Implicit Types (r : row num) (lr : lrow num) (df raw : list (row num)).

(** With the empty pieces counted as tokens: in every row of the prepared
    table, a piece of the normalised variety or province that is also a piece
    of the filtered description can only be the empty piece of an empty
    description. *)
Lemma filtered_description_leaks_only_empty raw (df : list (lrow num)) lr :
  prepare raw = Some df → lr ∈ df →
  ∀ d v p t,
    description (base lr) = Some d → variety (base lr) = Some v →
    province (base lr) = Some p →
    t ∈ split v ∨ t ∈ split p → t ∈ split d → t = "" ∧ d = "".
Proof.
  intros Hp Hlr d v p t Hd Hv Hpr Hvp Ht.
  destruct (prepare_elem raw df lr Hp Hlr) as (r0 & _ & Hf).
  apply final_row_Some in Hf as (d0 & p0 & v0 & _ & _ & _ & ->).
  simpl in *. simplify_eq. by apply two_pass_tokens.
Qed.


(** C7.  The two column-wide comprehensions amount to one function applied
    to each row on its own: row [i] of the result is row [i] of the input
    with its description filtered against its own variety tokens and then,
    starting from that text, against its own province tokens.  The stage
    raises exactly when some row lacks one of the three values. *)
Theorem leakage_filter_per_row df :
  leakage_filter df = mapM leak_row df ∧
  ∀ df' i r,
    leakage_filter df = Some df' → df !! i = Some r →
    ∃ d v p, description r = Some d ∧ variety r = Some v ∧
      province r = Some p ∧
      df' !! i =
        Some (set_description r (remove_tokens (remove_tokens d v) p)).
Proof.
  split; [apply leakage_filter_rowwise|].
  intros df' i r. rewrite leakage_filter_rowwise. intros HF%mapM_Some Hi.
  destruct (Forall2_lookup_l _ _ _ _ _ HF Hi) as (r' & Hi' & Hr').
  unfold leak_row in Hr'.
  destruct (description r) as [d|]; [|done].
  destruct (variety r) as [v|]; [|done].
  destruct (province r) as [p|]; [|done].
  exists d, v, p. simpl in Hr'. by simplify_eq.
Qed.

End Rows.
End LeakageFilter.

(** * Cleaner, normalisation and Label Builder *)
Module Preparation.
Import ListFacts PyStr Leakage PyStrFacts LeakageFacts Frame Views FrameFacts.

Section Rows.
Context {num : Type} `{!EqDecision num}.
Implicit Types (r : row num) (lr : lrow num) (df raw : list (row num)).

Lemma label_of_Some r p v :
  province r = Some p → variety r = Some v →
  label_of r = Some (p +:+ "_" +:+ v).
Proof.
  unfold label_of, str_add. intros -> ->. simpl. by rewrite append_assoc.
Qed.



(** The stages after the Cleaner keep province and variety present. *)
Lemma df_replace_labelled df :
  Forall labelled df → Forall labelled (df_replace df).
Proof.
  unfold df_replace. intros HF. apply Forall_fmap.
  eapply Forall_impl; [exact HF|]. intros r [Hp Hv]. unfold labelled. simpl.
  by rewrite !fmap_is_Some.
Qed.

Lemma filter_description_labelled col df df' :
  Forall labelled df → filter_description col df = Some df' →
  Forall labelled df'.
Proof.
  rewrite filter_description_rowwise. intros HF HM%mapM_Some.
  induction HM as [|r r' df df' Hr _ IH]; [done|].
  inversion_clear HF as [|? ? Hlab HF']. constructor; [|by apply IH].
  unfold filter_row in Hr.
  destruct (description r), (col r); simplify_eq/=. done.
Qed.

Lemma label_builder_labelled df :
  Forall labelled df →
  Forall (λ lr, labelled (base lr) ∧ is_Some (prov_var lr)) (label_builder df).
Proof.
  unfold label_builder. intros HF. apply Forall_fmap.
  eapply Forall_impl; [exact HF|]. intros r [[p Hp] [v Hv]]. simpl. split.
  - split; by eexists.
  - rewrite (label_of_Some r p v) by done. by eexists.
Qed.

(** C5.  Every row the Cleaner keeps has a province and a variety; the kept
    rows are pairwise different on the columns other than [id]; the Cleaner
    only drops rows; and of every group of input rows that agree on those
    columns and have a province and a variety, exactly one row is kept (of
    a group without province or variety, none).
    Normalisation, each description pass and the Label Builder keep province
    and variety present, so they are present (and so is the label) in every
    row of the prepared table, and the Class Selector returns projections of
    such rows only. *)
Theorem cleaner_invariant raw :
  Forall labelled (cleaner raw) ∧
  NoDup (key <$> cleaner raw) ∧
  cleaner raw `sublist_of` raw ∧
  (∀ r, r ∈ raw → labelled r →
        length (filter (λ r', key r' = key r) (cleaner raw)) = 1) ∧
  (∀ r, ¬ labelled r → filter (λ r', key r' = key r) (cleaner raw) = []) ∧
  (∀ df, Forall labelled df → Forall labelled (df_replace df)) ∧
  (∀ col df df', Forall labelled df → filter_description col df = Some df' →
                 Forall labelled df') ∧
  (∀ df, Forall labelled df →
         Forall (λ lr, labelled (base lr) ∧ is_Some (prov_var lr))
           (label_builder df)) ∧
  (∀ tbl : list (lrow num), prepare raw = Some tbl →
     Forall (λ lr, labelled (base lr) ∧ is_Some (prov_var lr)) tbl ∧
     ∀ lst s, s ∈ df_select tbl lst →
       ∃ lr, lr ∈ tbl ∧ s = project lr ∧ labelled (base lr)).
Proof.
  assert (Forall labelled (cleaner raw)) as Hclean.
  { apply Forall_forall. apply cleaner_labelled. }
  split; [done|]. split; [apply cleaner_NoDup|].
  split; [apply cleaner_sublist|]. split.
  { intros r Hr Hlab.
    destruct (cleaner_complete raw r Hr Hlab) as (r' & Hr' & Hk).
    rewrite <-Hk. apply NoDup_fmap_count; [apply cleaner_NoDup|done]. }
  split.
  { intros r Hr. apply filter_none. intros r' Hr' Hk. apply Hr.
    apply cleaner_labelled in Hr'. by apply (labelled_key r' r). }
  split; [apply df_replace_labelled|].
  split; [apply filter_description_labelled|].
  split; [apply label_builder_labelled|].
  intros tbl Hp.
  assert (Forall (λ lr, labelled (base lr) ∧ is_Some (prov_var lr)) tbl) as Htbl.
  { unfold prepare, leakage_filter in Hp.
    destruct (filter_description variety (df_replace (cleaner raw)))
      as [df1|] eqn:H1; [|done].
    simpl in Hp.
    destruct (filter_description province df1) as [df2|] eqn:H2; [|done].
    simpl in Hp. injection Hp as <-.
    apply label_builder_labelled.
    eapply filter_description_labelled; [|exact H2].
    eapply filter_description_labelled; [|exact H1].
    by apply df_replace_labelled. }
  split; [done|].
  intros lst s (lr & -> & [_ Hlr]%list_elem_of_filter)%list_elem_of_fmap.
  exists lr. split; [done|]. split; [done|].
  by apply (proj1 (Forall_forall _ _) Htbl lr Hlr).
Qed.

Lemma is_punct_spec c :
  is_punct c = true ↔ c = "."%char ∨ c = ","%char ∨ c = "-"%char.
Proof.
  unfold is_punct. rewrite !orb_true_iff, !Ascii.eqb_eq. tauto.
Qed.

Lemma replace_punct_get s n :
  String.get n (replace_punct s) =
  (λ c, if is_punct c then " "%char else c) <$> String.get n s.
Proof.
  revert n. induction s as [|x s IH]; intros [|n]; simpl; done.
Qed.

Lemma contains_get c s :
  contains c s = false ↔ ∀ n, String.get n s ≠ Some c.
Proof.
  induction s as [|x s IH].
  - split; [by intros _ [|n]|done].
  - rewrite contains_cons, IH, Ascii.eqb_neq. split.
    + intros [Hx Hs] [|n]; simpl; [congruence|apply Hs].
    + intros Hn. split.
      * intros ->. by apply (Hn 0%nat).
      * intros n. apply (Hn (S n)).
Qed.

Lemma no_punct_get s :
  no_punct s ↔ ∀ n c, String.get n s = Some c → is_punct c = false.
Proof.
  unfold no_punct. rewrite !contains_get. split.
  - intros (H1 & H2 & H3) n c Hn.
    destruct (is_punct c) eqn:Hc; [|done].
    apply is_punct_spec in Hc as [->| [->| ->]];
      [destruct (H1 n)|destruct (H2 n)|destruct (H3 n)]; done.
  - intros Hget. repeat split; intros n Hn; by apply Hget in Hn.
Qed.

(** C10.  The substitution reaches the strings of every column.  On a string
    it puts a space in the place of every comma, period and hyphen and keeps
    every other character and the length.  On a row it is applied to the
    description, the province, the variety and every string of the unnamed
    columns; [id], numbers and missing values stay.  On the table it is
    applied to each row in place.  After the step no string of any row holds
    a comma, a period or a hyphen, and neither does any label of the prepared
    table. *)
Theorem normalisation_covers_every_column :
  (∀ c, is_punct c = true ↔ c = "."%char ∨ c = ","%char ∨ c = "-"%char) ∧
  (∀ s, String.length (replace_punct s) = String.length s ∧
        ∀ n, String.get n (replace_punct s) =
             (λ c, if is_punct c then " "%char else c) <$> String.get n s) ∧
  (∀ r, id (replace_row r) = id r ∧
        description (replace_row r) = replace_punct <$> description r ∧
        province (replace_row r) = replace_punct <$> province r ∧
        variety (replace_row r) = replace_punct <$> variety r ∧
        others (replace_row r) = replace_cell <$> others r ∧
        row_strings (replace_row r) = replace_punct <$> row_strings r) ∧
  (∀ s (x : num),
          replace_cell (Text s : cell num) = Text (replace_punct s) ∧
          replace_cell (Num x) = Num x ∧
          replace_cell (Null : cell num) = Null) ∧
  (∀ df, length (df_replace df) = length df ∧
         ∀ i, df_replace df !! i = replace_row <$> df !! i) ∧
  (∀ s, no_punct s ↔ ∀ n c, String.get n s = Some c → is_punct c = false) ∧
  (∀ df r, r ∈ df_replace df →
     Forall no_punct (row_strings r) ∧
     (∀ d, description r = Some d → no_punct d) ∧
     (∀ p, province r = Some p → no_punct p) ∧
     (∀ v, variety r = Some v → no_punct v) ∧
     (∀ s, Text s ∈ others r → no_punct s)) ∧
  (∀ raw (tbl : list (lrow num)) lr l,
     prepare raw = Some tbl → lr ∈ tbl → prov_var lr = Some l → no_punct l).
Proof.
  split; [apply is_punct_spec|].
  split; [intros s; split; [apply replace_punct_length|apply replace_punct_get]|].
  split; [by intros r; repeat split; try apply row_strings_replace|].
  split; [done|].
  split.
  { intros df. unfold df_replace. split; [apply length_fmap|].
    intros i. apply list_lookup_fmap. }
  split; [apply no_punct_get|].
  split.
  - intros df r (r0 & -> & _)%list_elem_of_fmap.
    split; [apply row_strings_no_punct|]. simpl.
    split; [|split; [|split]].
    + intros d (d0 & _ & ->)%fmap_Some. apply replace_punct_no_punct.
    + intros p (p0 & _ & ->)%fmap_Some. apply replace_punct_no_punct.
    + intros v (v0 & _ & ->)%fmap_Some. apply replace_punct_no_punct.
    + intros s ([| |s0] & Hs & _)%list_elem_of_fmap; try done.
      simpl in Hs. injection Hs as ->. apply replace_punct_no_punct.
  - intros raw tbl lr l Hp Hlr Hl.
    destruct (prepare_elem raw tbl lr Hp Hlr) as (r0 & _ & Hf).
    apply final_row_Some in Hf as (d0 & p0 & v0 & _ & _ & _ & ->).
    simpl in Hl. injection Hl as <-.
    apply no_punct_app; [apply replace_punct_no_punct|].
    apply no_punct_app; [done|apply replace_punct_no_punct].
Qed.

End Rows.
End Preparation.

(** * The Class Selector *)
Module Selector.
Import ListFacts PyStr PyStrFacts Frame Views FrameFacts Curated.

Section Rows.
Context {num : Type} `{!EqDecision num}.
Implicit Types (lr : lrow num) (tbl : list (lrow num)) (s : srow)
  (lst : list string).

Lemma isin_true (v : option string) lst :
  isin v lst = true ↔ ∃ l, v = Some l ∧ l ∈ lst.
Proof.
  destruct v as [l|]; simpl.
  - rewrite bool_decide_eq_true. split; [by exists l|].
    by intros (? & [= <-] & ?).
  - split; [done|]. by intros (? & ? & _).
Qed.

Lemma df_select_elem tbl lst s :
  s ∈ df_select tbl lst ↔
  ∃ lr, lr ∈ tbl ∧ s = project lr ∧ ∃ l, prov_var lr = Some l ∧ l ∈ lst.
Proof.
  unfold df_select. rewrite list_elem_of_fmap. split.
  - intros (lr & -> & [Hin Hlr]%list_elem_of_filter).
    exists lr. by rewrite <-isin_true.
  - intros (lr & Hlr & -> & Hin). exists lr. split; [done|].
    apply list_elem_of_filter. by rewrite isin_true.
Qed.

Lemma df_select_sublist tbl lst :
  df_select tbl lst `sublist_of` (project <$> tbl).
Proof. unfold df_select. apply fmap_sublist, sublist_filter. Qed.

(** Rows are kept one by one: as many rows carry an allow-listed label after
    the selection as before. *)
Lemma df_select_count tbl lst l :
  l ∈ lst →
  length (filter (λ s, s_prov_var s = Some l) (df_select tbl lst)) =
  length (filter (λ lr, prov_var lr = Some l) tbl).
Proof.
  intros Hl. unfold df_select.
  induction tbl as [|lr tbl IH]; [done|].
  rewrite (filter_cons (λ lr, prov_var lr = Some l)).
  rewrite (filter_cons (λ r, isin (prov_var r) lst = true)).
  destruct (decide (isin (prov_var lr) lst = true)) as [Hin|Hout].
  - rewrite fmap_cons, filter_cons. simpl.
    destruct (decide (prov_var lr = Some l)); simpl; by rewrite IH.
  - rewrite IH. destruct (decide (prov_var lr = Some l)) as [Heq|]; [|done].
    destruct Hout. apply isin_true. by exists l.
Qed.

(** C6.  The labels of the selection are the labels of the table that are in
    the allow-list; every selected row has an allow-listed label; every table
    row with an allow-listed label is selected, as many times as it occurs;
    and the selection consists, in table order, of the projections of table
    rows to [id], [description] and [prov_var]. *)
Theorem df_select_is_intersection tbl lst :
  selected_label_set (df_select tbl lst) = label_set tbl ∩ list_to_set lst ∧
  (∀ s, s ∈ df_select tbl lst → ∃ l, s_prov_var s = Some l ∧ l ∈ lst) ∧
  (∀ lr l, lr ∈ tbl → prov_var lr = Some l → l ∈ lst →
           project lr ∈ df_select tbl lst) ∧
  (∀ l, l ∈ lst →
        length (filter (λ s, s_prov_var s = Some l) (df_select tbl lst)) =
        length (filter (λ lr, prov_var lr = Some l) tbl)) ∧
  df_select tbl lst `sublist_of` (project <$> tbl) ∧
  (∀ lr, s_id (project lr) = id (base lr) ∧
         s_description (project lr) = description (base lr) ∧
         s_prov_var (project lr) = prov_var lr).
Proof.
  split; [|split; [|split; [|split; [|split]]]].
  - apply set_eq. intros l. unfold selected_label_set, label_set.
    rewrite elem_of_intersection, !elem_of_list_to_set, !list_elem_of_omap.
    split.
    + intros (s & (lr & Hlr & -> & l' & Hl' & Hin)%df_select_elem & Hs).
      simpl in Hs. simplify_eq. split; [by exists lr|done].
    + intros [(lr & Hlr & Hl) Hin]. exists (project lr). split; [|done].
      apply df_select_elem. exists lr. split; [done|]. split; [done|].
      by exists l.
  - intros s (lr & _ & -> & Hin)%df_select_elem. done.
  - intros lr l Hlr Hl Hin. apply df_select_elem. exists lr.
    split; [done|]. split; [done|]. by exists l.
  - apply df_select_count.
  - apply df_select_sublist.
  - done.
Qed.

(** C3, as amended.  The curated red list holds 17 distinct labels, and the
    selection with it returns exactly the projections of the table rows whose
    label is one of these 17 strings: each such row as often as it occurs,
    and no row with another label or without a label. *)
Theorem selected_red_selection tbl :
  length selected_red = 17 ∧ NoDup selected_red ∧
  (∀ s, s ∈ df_select tbl selected_red ↔
        ∃ lr, lr ∈ tbl ∧ s = project lr ∧
          ∃ l, prov_var lr = Some l ∧ l ∈ selected_red) ∧
  (∀ l, l ∈ selected_red →
        length (filter (λ s, s_prov_var s = Some l)
                  (df_select tbl selected_red)) =
        length (filter (λ lr, prov_var lr = Some l) tbl)) ∧
  (∀ l, l ∉ selected_red →
        filter (λ s, s_prov_var s = Some l) (df_select tbl selected_red) = []).
Proof.
  split; [done|].
  split; [apply (bool_decide_unpack (NoDup selected_red)); by vm_compute|].
  split; [apply df_select_elem|]. split; [apply df_select_count|].
  intros l Hl. apply filter_none.
  intros s (lr & _ & -> & l' & Hl' & Hin)%df_select_elem Hs.
  simpl in Hs. by simplify_eq.
Qed.

(** Where the 14 classes of [df_red] come from: a label of the prepared table
    holds no comma, period or hyphen, so on that table the three entries of
    the list that hold one select nothing. *)
Lemma selected_red_on_prepared raw (tbl : list (lrow num)) :
  prepare raw = Some tbl →
  length (filter no_punct selected_red) = 14 ∧
  df_select tbl selected_red = df_select tbl (filter no_punct selected_red).
Proof.
  intros Hp. split; [by vm_compute|]. unfold df_select. f_equal.
  apply list_filter_iff_elem. intros lr Hlr. rewrite !isin_true.
  split; intros (l & Hl & Hin); exists l; (split; [done|]).
  - apply list_elem_of_filter. split; [|done].
    destruct (prepare_elem raw tbl lr Hp Hlr) as (r0 & _ & Hf).
    apply final_row_Some in Hf as (d0 & p0 & v0 & _ & _ & _ & ->).
    simpl in Hl. injection Hl as <-.
    apply no_punct_app; [apply replace_punct_no_punct|].
    apply no_punct_app; [done|apply replace_punct_no_punct].
  - by apply list_elem_of_filter in Hin as [_ ?].
Qed.

End Rows.
End Selector.

(** * The Descriptor Reporter *)
Module Reporter.
Import ListFacts Descriptors.

Section Ranking.
Context {W : Type} (leb : W → W → bool).

Local Abbreviation insert_desc := (insert_desc leb).
Local Abbreviation sorted_desc := (sorted_desc leb).
Local Abbreviation top_entries := (top_entries leb).
Local Abbreviation top_descriptors := (top_descriptors leb).
Local Abbreviation report := (report leb).
Local Abbreviation desc := (desc leb).
Local Abbreviation tied := (tied leb).

Hypothesis leb_total : ∀ a b, leb a b = true ∨ leb b a = true.
Hypothesis leb_trans : ∀ a b c, leb a b = true → leb b c = true → leb a c = true.

Lemma insert_desc_perm x l : insert_desc x l ≡ₚ x :: l.
Proof.
  induction l as [|y l IH]; simpl; [done|].
  destruct (leb y.2 x.2); [done|]. rewrite IH. apply Permutation_swap.
Qed.

Lemma sorted_desc_perm l : sorted_desc l ≡ₚ l.
Proof.
  induction l as [|x l IH]; simpl; [done|].
  by rewrite insert_desc_perm, IH.
Qed.

Lemma insert_desc_sorted x l :
  StronglySorted desc l → StronglySorted desc (insert_desc x l).
Proof.
  induction 1 as [|y l Hl IH Hy]; simpl.
  - by repeat constructor.
  - destruct (leb y.2 x.2) eqn:Hyx.
    + constructor; [by constructor|]. constructor; [done|].
      eapply Forall_impl; [exact Hy|]. intros z Hz. unfold desc in *. eauto.
    + constructor; [done|]. rewrite insert_desc_perm. constructor; [|done].
      unfold desc. destruct (leb_total x.2 y.2); [done|congruence].
Qed.

Lemma sorted_desc_sorted l : StronglySorted desc (sorted_desc l).
Proof.
  induction l as [|x l IH]; simpl; [constructor|by apply insert_desc_sorted].
Qed.

Lemma StronglySorted_app_between (l1 l2 : list (string * W)) :
  StronglySorted desc (l1 ++ l2) →
  StronglySorted desc l1 ∧ ∀ a b, a ∈ l1 → b ∈ l2 → desc a b.
Proof.
  induction l1 as [|x l1 IH]; simpl.
  - intros _. split; [constructor|]. by intros a b ?%elem_of_nil.
  - intros [Hs Hx]%StronglySorted_inv. destruct (IH Hs) as [Hs1 Hb].
    apply Forall_app in Hx as [Hx1 Hx2]. split; [by constructor|].
    intros a b [->|Ha]%elem_of_cons Hb'; [|by apply Hb].
    by apply (proj1 (Forall_forall _ _) Hx2).
Qed.

(** Stability: the entries tied with any given weight come out in the order
    they went in. *)
Lemma insert_desc_tied w x l :
  filter (tied w) (insert_desc x l) = filter (tied w) (x :: l).
Proof.
  induction l as [|y l IH]; simpl; [done|].
  destruct (leb y.2 x.2) eqn:Hyx; [done|].
  rewrite (filter_cons _ y), IH, !(filter_cons _ x), (filter_cons _ y).
  destruct (decide (tied w x)) as [Hx|]; [|done].
  destruct (decide (tied w y)) as [Hy|]; [|done].
  unfold tied in Hx, Hy.
  apply andb_true_iff in Hx as [_ Hwx]. apply andb_true_iff in Hy as [Hyw _].
  by rewrite (leb_trans _ _ _ Hyw Hwx) in Hyx.
Qed.

Lemma sorted_desc_stable w l :
  filter (tied w) (sorted_desc l) = filter (tied w) l.
Proof.
  induction l as [|x l IH]; simpl; [done|].
  by rewrite insert_desc_tied, !filter_cons, IH.
Qed.

Lemma leb_refl a : leb a a = true.
Proof. by destruct (leb_total a a). Qed.

(** Python's contract for [sorted] fixes the result: two descending, stable
    arrangements of the same entries are the same list. *)
Lemma stable_sort_unique l1 l2 :
  l1 ≡ₚ l2 → StronglySorted desc l1 → StronglySorted desc l2 →
  (∀ w, filter (tied w) l1 = filter (tied w) l2) → l1 = l2.
Proof.
  revert l2. induction l1 as [|a l1 IH]; intros l2 Hperm Hs1 Hs2 Hf.
  { by apply Permutation_nil_l in Hperm. }
  destruct l2 as [|b l2]; [by apply Permutation_nil_r in Hperm|].
  apply StronglySorted_inv in Hs1 as [Hs1 Ha].
  apply StronglySorted_inv in Hs2 as [Hs2 Hb].
  assert (desc a b) as Hab.
  { assert (b ∈ a :: l1) as [->|Hin]%elem_of_cons
      by (rewrite Hperm; by left).
    - apply leb_refl.
    - by apply (proj1 (Forall_forall _ _) Ha). }
  assert (desc b a) as Hba.
  { assert (a ∈ b :: l2) as [->|Hin]%elem_of_cons
      by (rewrite <-Hperm; by left).
    - apply leb_refl.
    - by apply (proj1 (Forall_forall _ _) Hb). }
  assert (a = b) as <-.
  { pose proof (Hf a.2) as Hw.
    rewrite !filter_cons in Hw.
    rewrite decide_True in Hw
      by (unfold tied; by rewrite leb_refl).
    rewrite decide_True in Hw
      by (unfold tied, desc in *; by rewrite Hab, Hba).
    by injection Hw. }
  f_equal. apply IH; [by eapply Permutation_cons_inv|done|done|].
  intros w. specialize (Hf w). rewrite !filter_cons in Hf.
  destruct (decide (tied w a)); [by injection Hf|done].
Qed.

Lemma zip_names_length (names : list string) (ws : list W) :
  length ws = length names → length (zip names ws) = length names.
Proof. intros Hl. rewrite length_zip_with. lia. Qed.

(** The slice [[:10]] takes 10 entries, or all of them when there are fewer. *)
Lemma top_entries_length (names : list string) (ws : list W) :
  length (top_entries names ws) = (10 `min` length (zip names ws))%nat.
Proof.
  unfold Descriptors.top_entries. by rewrite length_take, sorted_desc_perm.
Qed.

(** The ranking of one class. *)
Lemma top_entries_spec (names : list string) (ws : list W) :
  length ws = length names → (10 ≤ length names)%nat →
  ∃ rest,
    length (top_entries names ws) = 10 ∧
    StronglySorted desc (top_entries names ws) ∧
    zip names ws ≡ₚ top_entries names ws ++ rest ∧
    (∀ a b, a ∈ top_entries names ws → b ∈ rest → desc a b) ∧
    (∀ l', l' ≡ₚ zip names ws → StronglySorted desc l' →
           (∀ w, filter (tied w) l' = filter (tied w) (zip names ws)) →
           take 10 l' = top_entries names ws).
Proof.
  intros Hlen Hten. unfold top_entries.
  set (l := zip names ws). set (s := sorted_desc l).
  exists (drop 10 s).
  assert (s ≡ₚ l) as Hperm by apply sorted_desc_perm.
  assert (StronglySorted desc s) as Hs by apply sorted_desc_sorted.
  rewrite <-(take_drop 10 s) in Hs.
  apply StronglySorted_app_between in Hs as [Hs Hbetween].
  split.
  { rewrite length_take, Hperm. unfold l. rewrite zip_names_length by done. lia. }
  split; [done|]. split; [by rewrite take_drop|]. split; [done|].
  intros l' Hl' Hs' Hf. f_equal.
  apply stable_sort_unique; [by rewrite Hperm|done|apply sorted_desc_sorted|].
  intros w. unfold s. by rewrite sorted_desc_stable.
Qed.

(** C8.  When every class code indexes a row of the weight matrix, the rows
    are as long as the vocabulary and the vocabulary has at least 10 entries,
    the report has one item per entry of the class map, in its order; the
    item of a class lists the names of 10 entries of the vocabulary paired
    with that class's weights, in descending order of weight, none of them
    lighter than an entry left out.  The list is the one any stable
    descending sort yields, so a second run on the same model and vocabulary
    prints it again. *)
Theorem report_lists_top_ten (class_map : list (string * nat))
    (names : list string) (matrix : list (list W)) :
  Forall (λ cl : string * nat, (cl.2 < length matrix)%nat) class_map →
  Forall (λ ws, length ws = length names) matrix →
  (10 ≤ length names)%nat →
  ∃ out,
    report class_map names matrix = Some out ∧
    length out = length class_map ∧
    ∀ i label code, class_map !! i = Some (label, code) →
      ∃ ws rest,
        matrix !! code = Some ws ∧
        out !! i = Some (label, top_descriptors names ws) ∧
        top_descriptors names ws = (top_entries names ws).*1 ∧
        length (top_entries names ws) = 10 ∧
        StronglySorted desc (top_entries names ws) ∧
        zip names ws ≡ₚ top_entries names ws ++ rest ∧
        (∀ a b, a ∈ top_entries names ws → b ∈ rest → desc a b) ∧
        (∀ l', l' ≡ₚ zip names ws → StronglySorted desc l' →
               (∀ w, filter (tied w) l' = filter (tied w) (zip names ws)) →
               take 10 l' = top_entries names ws).
Proof.
  intros Hcodes Hrows Hten.
  destruct (mapM_is_Some_2
    (λ cl : string * nat,
       w ← matrix !! cl.2; Some (cl.1, top_descriptors names w)) class_map)
    as [out Hout].
  { eapply Forall_impl; [exact Hcodes|]. intros cl Hcl. simpl.
    destruct (lookup_lt_is_Some_2 matrix cl.2 Hcl) as [ws ->]. by eexists. }
  exists out. split; [done|]. apply mapM_Some in Hout.
  split; [symmetry; by eapply Forall2_length|].
  intros i label code Hi.
  destruct (Forall2_lookup_l _ _ _ _ _ Hout Hi) as (o & Ho & Hcl).
  simpl in Hcl. destruct (matrix !! code) as [ws|] eqn:Hws; [|done].
  simpl in Hcl. injection Hcl as <-.
  assert (length ws = length names) as Hlen.
  { apply (proj1 (Forall_forall _ _) Hrows). by eapply list_elem_of_lookup_2. }
  destruct (top_entries_spec names ws Hlen Hten) as (rest & ? & ? & ? & ? & ?).
  by exists ws, rest.
Qed.

End Ranking.
End Reporter.

(** * The Predictor *)
Module Predictor.
Import ListFacts Predict.

Section Model.
Context {X : Type} (vectorizer_transform : list string → X)
  (clf_predict : X → list nat).

Local Abbreviation result := (result vectorizer_transform clf_predict).
Local Abbreviation predictor := (predictor vectorizer_transform clf_predict).
Local Abbreviation predictor_per_input :=
  (predictor_per_input vectorizer_transform clf_predict).

(** What the comprehension computes: the labels of the class map whose code
    was predicted for some input, in the order of the class map, each entry
    of the class map at most once. *)
Lemma predictor_elem class_map test_input l :
  l ∈ predictor class_map test_input ↔
  ∃ code, (l, code) ∈ class_map ∧ code ∈ result test_input.
Proof.
  unfold predictor. rewrite list_elem_of_fmap. split.
  - intros ([l' code] & -> & [Hc Hin]%list_elem_of_filter). by exists code.
  - intros (code & Hin & Hc). exists (l, code). split; [done|].
    by apply list_elem_of_filter.
Qed.

Lemma predictor_sublist class_map test_input :
  predictor class_map test_input `sublist_of` class_map.*1.
Proof. unfold predictor. apply fmap_sublist, sublist_filter. Qed.

Lemma predictor_length class_map test_input :
  (length (predictor class_map test_input) ≤ length class_map)%nat.
Proof.
  etrans; [apply sublist_length, predictor_sublist|]. by rewrite length_fmap.
Qed.

(** Where the comprehension and the per-input reading agree: one input text,
    and a class map that lists each code once. *)
Lemma predictor_single class_map t code l :
  NoDup class_map.*2 → result [t] = [code] → (l, code) ∈ class_map →
  predictor class_map [t] = [l] ∧ predictor_per_input class_map [t] = Some [l].
Proof.
  unfold predictor, predictor_per_input. intros Hnd -> Hin.
  induction class_map as [|c cm IH]; [by apply elem_of_nil in Hin|].
  rewrite fmap_cons in Hnd. apply NoDup_cons in Hnd as [Hc Hnd].
  apply elem_of_cons in Hin as [<-|Hin].
  - rewrite filter_cons_True by (simpl; by left).
    rewrite filter_none.
    + split; [done|]. unfold label_of_code. simpl.
      by rewrite decide_True.
    + intros c' Hc' Heq%list_elem_of_singleton. apply Hc. simpl.
      rewrite <-Heq. by apply list_elem_of_fmap_2.
  - assert (c.2 ≠ code) as Hne.
    { intros <-. apply Hc. by apply (list_elem_of_fmap_2 snd) in Hin. }
    rewrite filter_cons_False by (by intros ?%list_elem_of_singleton).
    destruct (IH Hnd Hin) as [IH1 IH2]. split; [done|].
    revert IH2. unfold label_of_code. simpl.
    rewrite decide_False by done.
    destruct (list_find (λ c0 : string * nat, c0.2 = code) cm) as [[i c']|];
      simpl; [done|done].
Qed.

End Model.
End Predictor.

(** * Concrete runs *)
Module Examples.
Import PyStr Leakage Frame Views FrameFacts Curated Samples.

Example prepare_raw_ex : prepare raw_ex = Some tbl_ex.
Proof. vm_compute. reflexivity. Qed.

Example df_select_tbl_ex :
  df_select tbl_ex selected_red =
  [ SRow 1 (Some "Silky  with cola notes ") (Some "California_Pinot Noir");
    SRow 4 (Some "A smoky Syrah; Pinot like finish ") (Some "Washington_Syrah") ].
Proof. vm_compute. reflexivity. Qed.

(** The description of row 4 keeps [Pinot], a variety token of rows 1 and 2:
    the filter uses no table-wide token list. *)
Example other_rows_tokens_stay :
  "Pinot" ∈ split "A smoky Syrah; Pinot like finish " ∧
  "Pinot" ∈ tokens "Pinot Noir".
Proof. split; [vm_compute; repeat constructor|by vm_compute]. Qed.

(** The empty piece on row 0: the whole description is removed, the
    filtered description is the empty string, whose one piece is the empty
    one, and the normalised variety has an empty piece too (between its two
    spaces).  Neither is a token. *)
Lemma filtered_description_keeps_empty_token :
  prepare raw_ex = Some tbl_ex ∧ row_corvina ∈ tbl_ex ∧
  "" ∈ split "Corvina  Rondinella  Molinara" ∧ "" ∈ split "" ∧
  ¬ leak_free row_corvina.
Proof.
  assert ("" ∈ split "Corvina  Rondinella  Molinara") as Hv
    by (vm_compute; repeat constructor).
  assert ("" ∈ split "") as Hd by (vm_compute; repeat constructor).
  split; [exact prepare_raw_ex|]. split; [left|]. split; [done|].
  split; [done|]. intros Hfree.
  apply (Hfree "" "Corvina  Rondinella  Molinara" "Veneto" "");
    [reflexivity|reflexivity|reflexivity|by left|exact Hd].
Qed.

Lemma filtered_description_leaks_only_empty_witness :
  ("" : string) = "" ∧ ("" : string) = "".
Proof.
  refine (LeakageFilter.filtered_description_leaks_only_empty
            raw_ex tbl_ex row_corvina _ _
            "" "Corvina  Rondinella  Molinara" "Veneto" "" _ _ _ _ _);
    [vm_compute; reflexivity | left | reflexivity | reflexivity | reflexivity
    | left; vm_compute; repeat constructor | vm_compute; repeat constructor ].
Defined.


(** Row 4 keeps [Pinot], a variety token of rows 1 and 2: each row is
    filtered against its own values only. *)
Lemma leakage_filter_per_row_witness :
  ∃ d v p,
    Some "A smoky Washington Syrah; Pinot like finish " = Some d ∧
    Some "Syrah" = Some v ∧ Some "Washington" = Some p ∧
    base <$> tbl_ex !! 2%nat =
      Some (set_description
              (Row 4 (Some "A smoky Washington Syrah; Pinot like finish ")
                 (Some "Washington") (Some "Syrah")
                 [Text "US"; Num 91%Z; Num 30%Z; Text "K Vintners"])
              (remove_tokens (remove_tokens d v) p)).
Proof.
  destruct (proj2 (LeakageFilter.leakage_filter_per_row
                     (df_replace (cleaner raw_ex)))
              (base <$> tbl_ex) 2%nat
              (Row 4 (Some "A smoky Washington Syrah; Pinot like finish ")
                 (Some "Washington") (Some "Syrah")
                 [Text "US"; Num 91%Z; Num 30%Z; Text "K Vintners"]))
    as (d & v & p & Hd & Hv & Hp & Hrow);
    [vm_compute; reflexivity | vm_compute; reflexivity |].
  exists d, v, p. simpl in Hd, Hv, Hp.
  split; [exact Hd|]. split; [exact Hv|]. split; [exact Hp|].
  simpl. rewrite <-Hrow. reflexivity.
Defined.


(** Rows 1 and 2 form one duplicate group; one of them is kept. *)
Lemma cleaner_invariant_witness :
  length (filter (λ r', key r' = key (Row 2
            (Some "Silky Pinot-Noir, with cola notes.") (Some "California")
            (Some "Pinot Noir")
            [Text "US"; Num 90%Z; Num 45%Z; Text "Sea-Smoke"]))
            (cleaner raw_ex)) = 1%nat.
Proof.
  apply (proj1 (proj2 (proj2 (proj2 (Preparation.cleaner_invariant raw_ex)))));
    [vm_compute; repeat constructor | split; by eexists].
Defined.

Lemma normalisation_covers_every_column_witness :
  no_punct "California_Pinot Noir".
Proof.
  apply (proj2 (proj2 (proj2 (proj2 (proj2 (proj2 (proj2
           (Preparation.normalisation_covers_every_column (num:=Z))))))))
           raw_ex tbl_ex row_pinot);
    [vm_compute; reflexivity | vm_compute; repeat constructor | reflexivity].
Defined.

Lemma df_select_is_intersection_witness :
  project row_pinot ∈ df_select tbl_ex selected_red.
Proof.
  apply (proj1 (proj2 (proj2
           (Selector.df_select_is_intersection tbl_ex selected_red)))
           row_pinot "California_Pinot Noir");
    [vm_compute; repeat constructor | reflexivity | vm_compute; repeat constructor].
Defined.

(** C3 as worded fails on the list itself: it has 17 entries, not 14. *)
Lemma selected_red_has_17_entries :
  length selected_red = 17%nat ∧ length selected_red ≠ 14%nat.
Proof. split; [reflexivity|discriminate]. Qed.

Lemma selected_red_selection_witness :
  length (filter (λ s, s_prov_var s = Some "Washington_Syrah")
            (df_select tbl_ex selected_red)) =
  length (filter (λ lr, prov_var lr = Some "Washington_Syrah") tbl_ex).
Proof.
  apply (proj1 (proj2 (proj2 (proj2 (Selector.selected_red_selection tbl_ex))))).
  vm_compute; repeat constructor.
Defined.

(** C1.  With the two test sentences in the other order the codes predicted
    are 13 then 3, yet the comprehension prints the Pinot Noir label first:
    it follows the class map, not the inputs.  With the first sentence given
    twice it prints one label for two inputs.  The per-input reading of the
    specification gives the labels in input order, repeats kept. *)
Theorem predictor_follows_class_map_not_inputs :
  Predict.result stub_transform stub_predict [dark; bright] = [13; 3]%nat ∧
  Predict.predictor stub_transform stub_predict class_map_red [dark; bright]
    = ["California_Pinot Noir"; "Washington_Syrah"] ∧
  Predict.predictor_per_input stub_transform stub_predict class_map_red
    [dark; bright] = Some ["Washington_Syrah"; "California_Pinot Noir"] ∧
  Predict.predictor stub_transform stub_predict class_map_red [bright; bright]
    = ["California_Pinot Noir"] ∧
  Predict.predictor_per_input stub_transform stub_predict class_map_red
    [bright; bright] = Some ["California_Pinot Noir"; "California_Pinot Noir"].
Proof. repeat split; vm_compute; reflexivity. Qed.

(** The run of cell 29 itself: here the order of the class map happens to be
    the order of the inputs. *)
Example predictor_notebook_run :
  Predict.predictor stub_transform stub_predict class_map_red [bright; dark]
    = ["California_Pinot Noir"; "Washington_Syrah"].
Proof. vm_compute. reflexivity. Qed.

Example report_ex :
  Descriptors.report Z.leb class_map_ex names_ex matrix_ex =
  Some [ ("Oregon_Pinot Noir",
          ["cherry fruit"; "light"; "tart"; "vineyard"; "raspberry"; "dry";
           "nose"; "cola"; "silky"; "cherries"]);
         ("California_Pinot Noir",
          ["cola"; "raspberry"; "silky"; "cherries"; "dry"; "texture";
           "light"; "nose"; "vineyard"; "cranberry"]) ].
Proof. vm_compute. reflexivity. Qed.

Lemma report_lists_top_ten_witness :
  ∃ out, Descriptors.report Z.leb class_map_ex names_ex matrix_ex = Some out ∧
         length out = 2%nat.
Proof.
  destruct (Reporter.report_lists_top_ten Z.leb
              (λ a b, ltac:(lia)) (λ a b c, ltac:(lia))
              class_map_ex names_ex matrix_ex)
    as (out & Hout & Hlen & _);
    [repeat constructor | repeat constructor | vm_compute; lia |].
  exists out. split; [exact Hout|exact Hlen].
Defined.

End Examples.

(** * Further properties of the token filter *)
Module LeakageMore.
Import ListFacts PyStr Leakage PyStrFacts LeakageFacts.

Lemma append_length (a b : string) :
  String.length (a +:+ b) = (String.length a + String.length b)%nat.
Proof.
  induction a as [|x a IH]; [done|]. rewrite append_cons. simpl. by rewrite IH.
Qed.

Lemma join_cons x l :
  join (x :: l) = match l with [] => x | _ :: _ => x +:+ " " +:+ join l end.
Proof. done. Qed.

Lemma join_filter_length (P : string → Prop) `{!∀ x, Decision (P x)} l :
  (String.length (join (filter P l)) ≤ String.length (join l))%nat.
Proof.
  induction l as [|x l IH]; [done|].
  assert (String.length (join l) ≤ String.length (join (x :: l)))%nat as Hl.
  { rewrite join_cons. destruct l; [simpl; lia|].
    rewrite !append_length. lia. }
  rewrite filter_cons. destruct (decide (P x)); [|lia].
  rewrite !join_cons. destruct l as [|y l]; [done|].
  destruct (filter P (y :: l)) as [|z k].
  - rewrite !append_length. lia.
  - rewrite !append_length. lia.
Qed.

Lemma filter_all {A} (P : A → Prop) `{!∀ x, Decision (P x)} (l : list A) :
  (∀ x, x ∈ l → P x) → filter P l = l.
Proof.
  induction l as [|a l IH]; intros Hl; [done|].
  rewrite filter_cons_True by (apply Hl; by left).
  f_equal. apply IH. intros x Hx. apply Hl. by right.
Qed.

(** X1.  A description none of whose tokens is in the exclusion set comes
    back unchanged, spaces included. *)
Theorem remove_set_unchanged (S : gset string) (a : string) :
  (∀ t, t ∈ split a → t ∉ S) → remove_set S a = a.
Proof.
  intros Hfree. unfold remove_set. rewrite filter_all by done.
  apply join_split.
Qed.

(** X2.  The tokens of a filtered description are the tokens of the
    description that are not in the exclusion set, in their order and as
    often as they occur; when no token is left the filtered description is
    the empty string (whose one token is empty). *)
Theorem remove_set_tokens (S : gset string) (a : string) :
  (filter (λ x, x ∉ S) (split a) ≠ [] →
   split (remove_set S a) = filter (λ x, x ∉ S) (split a)) ∧
  (filter (λ x, x ∉ S) (split a) = [] →
   remove_set S a = "" ∧ split (remove_set S a) = [""]).
Proof.
  split; [apply remove_set_split|].
  intros Hf. unfold remove_set. by rewrite Hf.
Qed.

(** X3.  A pass is idempotent: filtering the filtered description against
    the same set changes nothing. *)
Theorem remove_set_idempotent (S : gset string) (a : string) :
  remove_set S (remove_set S a) = remove_set S a.
Proof. rewrite remove_set_twice. f_equal. apply (idemp_L (∪)). Qed.

(** X4.  A pass never makes a description longer. *)
Theorem remove_set_length (S : gset string) (a : string) :
  (String.length (remove_set S a) ≤ String.length a)%nat.
Proof.
  unfold remove_set. rewrite <-(join_split a) at 2.
  apply join_filter_length.
Qed.

End LeakageMore.

(** * Further properties of the table stages *)
Module PipelineMore.
Import ListFacts PyStr Leakage PyStrFacts LeakageFacts LeakageMore Frame Views
  FrameFacts.

Lemma contains_split c s :
  contains c s = false → Forall (λ t, contains c t = false) (split s).
Proof.
  induction s as [|x s IH]; simpl; [by repeat constructor|].
  intros [Hx Hs]%orb_false_iff. specialize (IH Hs).
  destruct (Ascii.eqb x " "); [by constructor|].
  destruct (split s) as [|t ts]; inversion_clear IH.
  - repeat constructor. simpl. by rewrite Hx.
  - constructor; [|done]. simpl. by rewrite Hx.
Qed.

Lemma contains_join c l :
  Ascii.eqb c " " = false → Forall (λ t, contains c t = false) l →
  contains c (join l) = false.
Proof.
  intros Hc. induction 1 as [|x l Hx Hl IH]; [done|].
  rewrite join_cons. destruct l as [|y l]; [done|].
  rewrite !contains_app, Hx, IH. simpl. by rewrite Hc.
Qed.

(** A pass brings in no character the description did not have. *)
Lemma remove_set_contains c (S : gset string) a :
  Ascii.eqb c " " = false → contains c a = false →
  contains c (remove_set S a) = false.
Proof.
  intros Hc Ha. unfold remove_set. apply contains_join; [done|].
  apply Forall_forall. intros t [_ Ht]%list_elem_of_filter.
  by apply (proj1 (Forall_forall _ _) (contains_split c a Ha)).
Qed.

Lemma remove_set_no_punct (S : gset string) a :
  no_punct a → no_punct (remove_set S a).
Proof.
  intros (H1 & H2 & H3). repeat split; by apply remove_set_contains.
Qed.

Section Rows.
Context {num : Type} `{!EqDecision num}.
Implicit Types (r : row num) (lr : lrow num) (df raw : list (row num)).

Lemma leak_row_Some r r' :
  leak_row r = Some r' ↔
  ∃ d v p, description r = Some d ∧ variety r = Some v ∧ province r = Some p ∧
    r' = set_description r (two_pass d v p).
Proof.
  unfold leak_row. destruct (description r) as [d|], (variety r) as [v|],
    (province r) as [p|]; simpl;
    try (split; [done|by intros (?&?&?&?&?&?&?)]).
  split.
  - intros [= <-]. by exists d, v, p.
  - by intros (?&?&?&[= <-]&[= <-]&[= <-]&->).
Qed.

(** X5.  The Leakage Filter rewrites descriptions only: the result has the
    same rows in the same order, each with its [id], province, variety and
    remaining columns as before and with a description. *)
Theorem leakage_filter_keeps_other_columns df df' :
  leakage_filter df = Some df' →
  Forall2 (λ r r', id r' = id r ∧ province r' = province r ∧
                   variety r' = variety r ∧ others r' = others r ∧
                   is_Some (description r')) df df'.
Proof.
  rewrite leakage_filter_rowwise. intros HF%mapM_Some.
  eapply Forall2_impl; [exact HF|]. simpl.
  intros r r' (d & v & p & _ & _ & _ & ->)%leak_row_Some. simpl.
  repeat split; by eexists.
Qed.

(** X6.  The Leakage Filter raises exactly when some row lacks a
    description, a variety or a province. *)
Theorem leakage_filter_raises_iff df :
  leakage_filter df = None ↔
  Exists (λ r, description r = None ∨ variety r = None ∨ province r = None) df.
Proof.
  rewrite leakage_filter_rowwise, mapM_None, !Exists_exists.
  split; intros (r & Hr & H); exists r; (split; [done|]); revert H;
    unfold leak_row;
    destruct (description r), (variety r), (province r); simpl;
    intuition congruence.
Qed.

(** X7.  When some row of the raw table has a province and a variety (so
    that both columns hold strings), cells 5 to 9 raise exactly when some
    row of the raw table has a province and a variety but no description. *)
Theorem prepare_raises_iff raw :
  (∃ r, r ∈ raw ∧ labelled r) →
  (prepare raw = None ↔
   ∃ r, r ∈ raw ∧ labelled r ∧ description r = None).
Proof.
  intros _.
  rewrite prepare_rowwise, mapM_None, Exists_exists. split.
  - intros (r & Hr & Hf). exists r.
    pose proof (cleaner_labelled raw r Hr) as Hlab.
    split; [eapply elem_of_sublist; [exact Hr|apply cleaner_sublist]|].
    split; [done|]. destruct Hlab as [[p Hp] [v Hv]].
    destruct (description r) as [d|] eqn:Hd; [|done].
    assert (is_Some (final_row r)) as [? ?]; [|congruence].
    eexists. apply final_row_Some. by exists d, p, v.
  - intros (r & Hr & Hlab & Hd).
    destruct (cleaner_complete raw r Hr Hlab) as (r' & Hr' & Hk).
    exists r'. split; [done|]. unfold key in Hk. injection Hk as Hd' _ _ _.
    destruct (final_row r') as [lr|] eqn:Hf; [|done].
    apply final_row_Some in Hf as (d & _ & _ & Hd'' & _). congruence.
Qed.

(** X8.  A row of the prepared table is the row of the Cleaner's output at
    the same position with its strings normalised: same [id], normalised
    province, variety and remaining columns; only the description is
    filtered as well. *)
Theorem prepare_keeps_rows raw (tbl : list (lrow num)) :
  prepare raw = Some tbl →
  Forall2 (λ r0 lr,
             id (base lr) = id r0 ∧
             province (base lr) = replace_punct <$> province r0 ∧
             variety (base lr) = replace_punct <$> variety r0 ∧
             others (base lr) = replace_cell <$> others r0)
    (cleaner raw) tbl.
Proof.
  rewrite prepare_rowwise. intros HF%mapM_Some.
  eapply Forall2_impl; [exact HF|]. simpl.
  intros r0 lr (d & p & v & _ & Hp & Hv & ->)%final_row_Some. simpl.
  by rewrite Hp, Hv.
Qed.

(** X9.  Every description of the prepared table is free of commas, periods
    and hyphens: the filter removes tokens of the normalised text and adds
    nothing but the joining spaces. *)
Theorem prepared_description_no_punct raw (tbl : list (lrow num)) lr :
  prepare raw = Some tbl → lr ∈ tbl →
  ∃ d, description (base lr) = Some d ∧ no_punct d.
Proof.
  intros Hp Hlr.
  destruct (prepare_elem raw tbl lr Hp Hlr) as (r0 & _ & Hf).
  apply final_row_Some in Hf as (d0 & p0 & v0 & _ & _ & _ & ->).
  eexists. split; [done|]. unfold two_pass, remove_tokens.
  do 2 apply remove_set_no_punct. apply replace_punct_no_punct.
Qed.

End Rows.
End PipelineMore.

(** * Further properties of the Cleaner, the normalisation and the labels *)
Module PreparationMore.
Import ListFacts PyStr Leakage PyStrFacts Frame Views FrameFacts.

Lemma replace_punct_idempotent s :
  replace_punct (replace_punct s) = replace_punct s.
Proof. apply replace_punct_id, replace_punct_no_punct. Qed.

(** X10.  The substitution leaves a string as it is exactly when the string
    holds no comma, period or hyphen, and it never changes the length of a
    string: each of these characters becomes one space. *)
Theorem replace_punct_fixpoint s :
  (replace_punct s = s ↔ no_punct s) ∧
  String.length (replace_punct s) = String.length s.
Proof.
  split; [|apply replace_punct_length]. split.
  - intros <-. apply replace_punct_no_punct.
  - apply replace_punct_id.
Qed.

Lemma append_underscore_inj p1 v1 p2 v2 :
  contains "_" p1 = false → contains "_" p2 = false →
  p1 +:+ "_" +:+ v1 = p2 +:+ "_" +:+ v2 → p1 = p2 ∧ v1 = v2.
Proof.
  revert p2. induction p1 as [|c p1 IH]; intros [|c2 p2] H1 H2 Heq.
  - by injection Heq.
  - rewrite append_cons in Heq. injection Heq as <- _.
    apply contains_cons in H2 as [H2 _]. done.
  - rewrite append_cons in Heq. injection Heq as -> _.
    apply contains_cons in H1 as [H1 _]. done.
  - rewrite !append_cons in Heq. injection Heq as <- Heq.
    apply contains_cons in H1 as [_ H1]. apply contains_cons in H2 as [_ H2].
    destruct (IH p2 H1 H2 Heq) as [-> ->]. done.
Qed.

Section Rows.
Context {num : Type} `{!EqDecision num}.
Implicit Types (r : row num) (lr : lrow num) (df raw : list (row num)).

Lemma replace_row_idempotent r : replace_row (replace_row r) = replace_row r.
Proof.
  destruct r as [i d p v o]. unfold replace_row. simpl. f_equal.
  - destruct d; simpl; by rewrite ?replace_punct_idempotent.
  - destruct p; simpl; by rewrite ?replace_punct_idempotent.
  - destruct v; simpl; by rewrite ?replace_punct_idempotent.
  - induction o as [|c o IH]; [done|]. rewrite !fmap_cons. f_equal; [|done].
    destruct c; simpl; by rewrite ?replace_punct_idempotent.
Qed.

(** X11.  Normalising a normalised table changes nothing. *)
Theorem df_replace_idempotent df : df_replace (df_replace df) = df_replace df.
Proof.
  unfold df_replace. induction df as [|r df IH]; [done|].
  rewrite !fmap_cons. f_equal; [apply replace_row_idempotent|done].
Qed.

Lemma drop_duplicates_from_first seen df r :
  r ∈ drop_duplicates_from seen df →
  ∃ l1 l2, df = (l1 ++ r :: l2)%list ∧ (key r ∉ key <$> l1) ∧ (key r ∉ seen).
Proof.
  revert seen. induction df as [|r0 df IH]; intros seen; simpl.
  { by intros ?%elem_of_nil. }
  case_decide as Hseen.
  - intros (l1 & l2 & -> & Hl1 & Hs)%IH. exists (r0 :: l1), l2.
    split; [done|]. split; [|done]. rewrite fmap_cons.
    intros [Heq|?]%elem_of_cons; [|done]. apply Hs. by rewrite Heq.
  - intros [->|Hr]%elem_of_cons.
    + exists [], df. split; [done|]. split; [|done]. apply not_elem_of_nil.
    + apply IH in Hr as (l1 & l2 & -> & Hl1 & Hs).
      apply not_elem_of_cons in Hs as [Hne Hs].
      exists (r0 :: l1), l2. split; [done|]. split; [|done].
      rewrite fmap_cons. by intros [?|?]%elem_of_cons.
Qed.

(** X12.  The row the Cleaner keeps of a group of duplicates is the first
    one: no earlier row of the raw table agrees with a kept row on all
    columns but [id]. *)
Theorem cleaner_keeps_first raw r :
  r ∈ cleaner raw →
  ∃ l1 l2, raw = (l1 ++ r :: l2)%list ∧ (key r ∉ key <$> l1).
Proof.
  unfold cleaner, dropna, drop_duplicates.
  intros [_ Hr]%list_elem_of_filter.
  destruct (drop_duplicates_from_first [] raw r Hr) as (l1 & l2 & ? & ? & _).
  by exists l1, l2.
Qed.

Lemma dropna_drop_duplicates_from s1 s2 df :
  (∀ r, labelled r → key r ∈ s1 ↔ key r ∈ s2) →
  dropna (drop_duplicates_from s1 df) = drop_duplicates_from s2 (dropna df).
Proof.
  unfold dropna. revert s1 s2. induction df as [|r df IH]; intros s1 s2 Hs.
  { done. }
  rewrite (filter_cons _ r df). simpl.
  destruct (decide (labelled r)) as [Hlab|Hlab]; simpl.
  - destruct (decide (key r ∈ s1)) as [H1|H1].
    + rewrite decide_True by (by apply Hs). by apply IH.
    + rewrite decide_False by (by rewrite <-Hs).
      rewrite filter_cons_True by done. f_equal. apply IH.
      intros r' Hr'. rewrite !elem_of_cons, Hs by done. done.
  - destruct (decide (key r ∈ s1)) as [H1|H1]; [by apply IH|].
    rewrite filter_cons_False by done. apply IH.
    intros r' Hr'. rewrite elem_of_cons, Hs by done.
    split; [|by right]. intros [Heq|?]; [|done].
    destruct Hlab. by apply (labelled_key r' r).
Qed.

(** X13.  The two steps of the Cleaner commute: dropping the rows without
    province or variety first and the duplicates second gives the same
    table. *)
Theorem dropna_drop_duplicates_commute raw :
  dropna (drop_duplicates raw) = drop_duplicates (dropna raw).
Proof. by apply dropna_drop_duplicates_from. Qed.

Lemma drop_duplicates_from_id seen df :
  NoDup (key <$> df) → (∀ r, r ∈ df → key r ∉ seen) →
  drop_duplicates_from seen df = df.
Proof.
  revert seen. induction df as [|r df IH]; intros seen Hnd Hs; [done|].
  rewrite fmap_cons in Hnd. apply NoDup_cons in Hnd as [Hr Hnd]. simpl.
  rewrite decide_False by (apply Hs; by left). f_equal.
  apply IH; [done|]. intros r' Hr'.
  apply not_elem_of_cons. split; [|apply Hs; by right].
  intros Heq. apply Hr. rewrite <-Heq. by apply list_elem_of_fmap_2.
Qed.

(** X14.  A table whose rows all have province and variety and pairwise
    differ off [id] passes the Cleaner unchanged; so cleaning twice is
    cleaning once. *)
Theorem cleaner_idempotent raw :
  (NoDup (key <$> raw) → Forall labelled raw → cleaner raw = raw) ∧
  cleaner (cleaner raw) = cleaner raw.
Proof.
  assert (∀ df, NoDup (key <$> df) → Forall labelled df → cleaner df = df)
    as Hid.
  { intros df Hnd Hlab. unfold cleaner, drop_duplicates, dropna.
    rewrite drop_duplicates_from_id;
      [|done|intros; apply not_elem_of_nil].
    apply LeakageMore.filter_all. by apply Forall_forall. }
  split; [apply Hid|]. apply Hid; [apply cleaner_NoDup|].
  apply Forall_forall, cleaner_labelled.
Qed.

(** X15.  Labels can be read back when no province holds an underscore:
    rows with the same label then have the same province and the same
    variety. *)
Theorem label_determines_fields r1 r2 p1 p2 l :
  province r1 = Some p1 → province r2 = Some p2 →
  contains "_" p1 = false → contains "_" p2 = false →
  label_of r1 = Some l → label_of r2 = Some l →
  province r1 = province r2 ∧ variety r1 = variety r2.
Proof.
  intros Hp1 Hp2 Hu1 Hu2. unfold label_of, str_add. rewrite Hp1, Hp2. simpl.
  destruct (variety r1) as [v1|], (variety r2) as [v2|]; simpl; try done.
  rewrite !append_assoc. intros [= <-] [= Heq].
  destruct (append_underscore_inj p2 v2 p1 v1 Hu2 Hu1 Heq) as [-> ->]. done.
Qed.

End Rows.
End PreparationMore.

(** * Further properties of the Class Selector *)
Module SelectorMore.
Import ListFacts PyStr PyStrFacts Frame Views FrameFacts Curated Training Selector.

Section Rows.
Context {num : Type} `{!EqDecision num}.
Implicit Types (lr : lrow num) (tbl : list (lrow num)) (s : srow)
  (lst : list string).

(** X16.  The allow-list is used as a set: two lists with the same entries,
    in whatever order and however often repeated, select the same rows. *)
Theorem df_select_same_entries tbl lst1 lst2 :
  (∀ l, l ∈ lst1 ↔ l ∈ lst2) → df_select tbl lst1 = df_select tbl lst2.
Proof.
  intros Hl. unfold df_select. f_equal. apply list_filter_iff. intros lr.
  rewrite !isin_true. split; intros (l & ? & ?); exists l; by rewrite ?Hl in *.
Qed.

Lemma df_select_disjoint tbl lst1 lst2 s :
  (∀ l, l ∈ lst1 → l ∉ lst2) →
  s ∈ df_select tbl lst1 → s ∉ df_select tbl lst2.
Proof.
  intros Hdisj (lr1 & _ & -> & l1 & Hl1 & Hin1)%df_select_elem
    (lr2 & _ & Heq & l2 & Hl2 & Hin2)%df_select_elem.
  apply (Hdisj l1 Hin1).
  assert (prov_var lr1 = prov_var lr2) as Hpv by (by injection Heq).
  rewrite Hl1, Hl2 in Hpv. by injection Hpv as ->.
Qed.

(** X17.  The three training tables share no row: a row selected for the red
    wines is selected neither for the white nor for the sparkling ones, and
    a row selected for the white wines is not selected for the sparkling
    ones. *)
Theorem training_tables_disjoint tbl s :
  (s ∈ df_red tbl → (s ∉ df_white tbl) ∧ (s ∉ df_spark tbl)) ∧
  (s ∈ df_white tbl → s ∉ df_spark tbl).
Proof.
  assert (∀ l1 l2 : list string,
            Forall (λ l, l ∉ l2) l1 → ∀ l, l ∈ l1 → l ∉ l2) as Hall.
  { intros l1 l2 HF l Hl. by apply (proj1 (Forall_forall _ _) HF). }
  unfold df_red, df_white, df_spark. split; [intros Hs; split|intros Hs].
  - eapply df_select_disjoint; [|exact Hs]. apply Hall.
    apply (bool_decide_unpack _). by vm_compute.
  - eapply df_select_disjoint; [|exact Hs]. apply Hall.
    apply (bool_decide_unpack _). by vm_compute.
  - eapply df_select_disjoint; [|exact Hs]. apply Hall.
    apply (bool_decide_unpack _). by vm_compute.
Qed.

(** X18.  On the prepared table an entry of the allow-list that holds a
    comma, a period or a hyphen selects nothing: the selection is the one of
    the list without these entries. *)
Theorem df_select_ignores_punctuated_entries raw tbl lst :
  prepare raw = Some tbl →
  df_select tbl lst = df_select tbl (filter no_punct lst).
Proof.
  intros Hp. unfold df_select. f_equal.
  apply list_filter_iff_elem. intros lr Hlr. rewrite !isin_true.
  split; intros (l & Hl & Hin); exists l; (split; [done|]).
  - apply list_elem_of_filter. split; [|done].
    destruct (prepare_elem raw tbl lr Hp Hlr) as (r0 & _ & Hf).
    apply final_row_Some in Hf as (d0 & p0 & v0 & _ & _ & _ & ->).
    simpl in Hl. injection Hl as <-.
    apply no_punct_app; [apply replace_punct_no_punct|].
    apply no_punct_app; [done|apply replace_punct_no_punct].
  - by apply list_elem_of_filter in Hin as [_ ?].
Qed.

End Rows.
End SelectorMore.

(** * Class codes and the class map *)
Module CodingFacts.
Import ListFacts Frame Coding.

Local Abbreviation slt := String_as_OT.lt.

Lemma compare_Eq a b : String_as_OT.compare a b = Eq → a = b.
Proof. by destruct (String_as_OT.compare_spec a b). Qed.

Lemma compare_Gt a b : String_as_OT.compare a b = Gt → slt b a.
Proof. by destruct (String_as_OT.compare_spec a b). Qed.

Lemma slt_irrefl a : ¬ slt a a.
Proof. apply (StrictOrder_Irreflexive (R:=String_as_OT.lt)). Qed.

Lemma slt_trans a b c : slt a b → slt b c → slt a c.
Proof. apply (StrictOrder_Transitive (R:=String_as_OT.lt)). Qed.

Lemma insert_category_elem l cats x :
  x ∈ insert_category l cats ↔ x = l ∨ x ∈ cats.
Proof.
  induction cats as [|c cs IH]; simpl.
  - rewrite list_elem_of_singleton, elem_of_nil. tauto.
  - destruct (String_as_OT.compare l c) eqn:Hc.
    + apply compare_Eq in Hc as ->. rewrite elem_of_cons. tauto.
    + rewrite !elem_of_cons. tauto.
    + rewrite !elem_of_cons, IH. tauto.
Qed.

Lemma insert_category_sorted l cats :
  StronglySorted slt cats → StronglySorted slt (insert_category l cats).
Proof.
  induction 1 as [|c cs Hcs IH Hc]; simpl; [by repeat constructor|].
  destruct (String_as_OT.compare l c) eqn:Hlc.
  - by constructor.
  - constructor; [by constructor|]. constructor; [done|].
    eapply Forall_impl; [exact Hc|]. intros x Hx. by eapply slt_trans.
  - constructor; [done|]. apply Forall_forall.
    intros x [->|Hx]%insert_category_elem; [by apply compare_Gt|].
    by apply (proj1 (Forall_forall _ _) Hc).
Qed.

Lemma categories_sorted values : StronglySorted slt (categories values).
Proof.
  unfold categories. induction (omap (λ v, v) values) as [|l ls IH]; simpl.
  - constructor.
  - by apply insert_category_sorted.
Qed.

Lemma categories_elem values l : l ∈ categories values ↔ Some l ∈ values.
Proof.
  unfold categories.
  assert (Some l ∈ values ↔ l ∈ omap (λ v, v) values) as ->.
  { rewrite list_elem_of_omap. split; [by exists (Some l)|].
    by intros (? & ? & ->). }
  induction (omap (λ v, v) values) as [|x ls IH]; simpl; [done|].
  rewrite insert_category_elem, elem_of_cons, IH. done.
Qed.

Lemma StronglySorted_slt_lookup cats i j a b :
  StronglySorted slt cats → cats !! i = Some a → cats !! j = Some b →
  (i < j)%nat → slt a b.
Proof.
  intros Hs. revert i j. induction Hs as [|c cs Hcs IH Hc]; intros i j.
  { by rewrite lookup_nil. }
  destruct i as [|i], j as [|j]; simpl; intros Hi Hj Hlt; try lia.
  - injection Hi as <-. apply (proj1 (Forall_forall _ _) Hc).
    by eapply list_elem_of_lookup_2.
  - apply (IH i j); [done|done|lia].
Qed.

Lemma categories_NoDup values : NoDup (categories values).
Proof.
  apply NoDup_alt. intros i j l Hi Hj.
  destruct (Nat.lt_trichotomy i j) as [Hlt|[->|Hlt]]; [|done|].
  - destruct (slt_irrefl l).
    by apply (StronglySorted_slt_lookup _ i j l l (categories_sorted values)).
  - destruct (slt_irrefl l).
    by apply (StronglySorted_slt_lookup _ j i l l (categories_sorted values)).
Qed.

(** The code of a value that is among the categories is its position. *)
Lemma code_of_position cats l n :
  NoDup cats → cats !! n = Some l → code_of cats (Some l) = Z.of_nat n.
Proof.
  intros Hnd Hn. unfold code_of.
  destruct (list_find (λ c, c = l) cats) as [[i x]|] eqn:Hf.
  - apply list_find_Some in Hf as (Hi & -> & _). simpl.
    by rewrite (NoDup_lookup cats i n l Hnd Hi Hn).
  - apply list_find_None in Hf.
    destruct (proj1 (Forall_forall _ _) Hf l); [|done].
    by eapply list_elem_of_lookup_2.
Qed.

Lemma code_of_elem cats l :
  NoDup cats → l ∈ cats →
  ∃ n, code_of cats (Some l) = Z.of_nat n ∧ cats !! n = Some l.
Proof.
  intros Hnd [n Hn]%list_elem_of_lookup. exists n.
  split; [by apply code_of_position|done].
Qed.

Lemma lookup_categorical_codes values i :
  categorical_codes values !! i = code_of (categories values) <$> values !! i.
Proof. unfold categorical_codes. apply list_lookup_fmap. Qed.

Lemma codes_decode_aux values i l :
  values !! i = Some (Some l) →
  ∃ n, categorical_codes values !! i = Some (Z.of_nat n) ∧
       categories values !! n = Some l.
Proof.
  intros Hi. rewrite lookup_categorical_codes, Hi. cbn -[code_of categories].
  destruct (code_of_elem (categories values) l (categories_NoDup values))
    as (n & -> & Hn).
  { apply categories_elem. by eapply list_elem_of_lookup_2. }
  by exists n.
Qed.

(** X19.  Encoding then decoding gives the label back: the code of a row
    whose label is present is the position of that label among the sorted
    categories, a number from 0 to k-1 for k distinct labels; the code of a
    row without label is -1. *)
Theorem codes_decode values i v :
  values !! i = Some v →
  match v with
  | Some l =>
      ∃ n, categorical_codes values !! i = Some (Z.of_nat n) ∧
           categories values !! n = Some l ∧
           (n < length (categories values))%nat
  | None => categorical_codes values !! i = Some (-1)%Z
  end.
Proof.
  intros Hi. destruct v as [l|].
  - destruct (codes_decode_aux values i l Hi) as (n & Hc & Hn).
    exists n. split; [done|]. split; [done|]. by eapply lookup_lt_Some.
  - by rewrite lookup_categorical_codes, Hi.
Qed.

(** X20.  The codes are dense: every number from 0 to k-1, for k distinct
    labels, is the code of some row. *)
Theorem codes_dense values n :
  (n < length (categories values))%nat →
  ∃ i l, values !! i = Some (Some l) ∧
         categorical_codes values !! i = Some (Z.of_nat n).
Proof.
  intros [l Hn]%lookup_lt_is_Some.
  assert (Some l ∈ values) as [i Hi]%list_elem_of_lookup.
  { apply categories_elem. by eapply list_elem_of_lookup_2. }
  exists i, l. split; [done|].
  rewrite lookup_categorical_codes, Hi. cbn -[code_of categories]. f_equal.
  by apply code_of_position; [apply categories_NoDup|].
Qed.

(** X21.  Codes follow the order of the labels: of two rows with labels,
    the one whose label comes first in the ordering of strings has the
    smaller code, and equal labels have equal codes. *)
Theorem codes_monotone values i j l1 l2 c1 c2 :
  values !! i = Some (Some l1) → values !! j = Some (Some l2) →
  categorical_codes values !! i = Some c1 →
  categorical_codes values !! j = Some c2 →
  (slt l1 l2 ↔ (c1 < c2)%Z) ∧ (l1 = l2 ↔ c1 = c2).
Proof.
  intros Hi Hj Hc1 Hc2.
  destruct (codes_decode_aux values i l1 Hi) as (n1 & Hn1 & Hl1).
  destruct (codes_decode_aux values j l2 Hj) as (n2 & Hn2 & Hl2).
  rewrite Hc1 in Hn1. rewrite Hc2 in Hn2.
  injection Hn1 as ->. injection Hn2 as ->.
  pose proof (categories_sorted values) as Hs.
  pose proof (categories_NoDup values) as Hnd.
  assert (l1 = l2 ↔ n1 = n2) as Heq.
  { split; [intros ->; by eapply NoDup_lookup|intros ->; congruence]. }
  split; [|rewrite Heq; lia]. split.
  - intros Hlt. destruct (Nat.lt_trichotomy n1 n2) as [?|[Hn|Hgt]]; [lia| |].
    + apply Heq in Hn as ->. by destruct (slt_irrefl l2).
    + destruct (slt_irrefl l1). eapply slt_trans; [exact Hlt|].
      by apply (StronglySorted_slt_lookup _ n2 n1 l2 l1 Hs).
  - intros Hlt. apply (StronglySorted_slt_lookup _ n1 n2 l1 l2 Hs); [done..|lia].
Qed.

End CodingFacts.

Module ClassMapFacts.
Import ListFacts Frame Coding CodingFacts.

Section Dedup.
Context {A K : Type} `{!EqDecision K} (key : A → K).

Lemma drop_duplicates_on_sublist seen l :
  drop_duplicates_on key seen l `sublist_of` l.
Proof.
  revert seen. induction l as [|x l IH]; intros seen; simpl; [done|].
  case_decide; [by apply sublist_cons|by apply sublist_skip].
Qed.

Lemma drop_duplicates_on_fresh seen l x :
  x ∈ drop_duplicates_on key seen l → key x ∉ seen.
Proof.
  revert seen. induction l as [|a l IH]; intros seen; simpl.
  - by intros ?%elem_of_nil.
  - case_decide as Hseen; [by apply IH|].
    intros [->|Hx]%elem_of_cons; [done|].
    apply IH in Hx. by intros ?; apply Hx; right.
Qed.

Lemma drop_duplicates_on_NoDup seen l :
  NoDup (key <$> drop_duplicates_on key seen l).
Proof.
  revert seen. induction l as [|a l IH]; intros seen; simpl.
  - constructor.
  - case_decide as Hseen; [by apply IH|].
    rewrite fmap_cons. constructor; [|by apply IH].
    intros (x & Hk & Hx)%list_elem_of_fmap.
    apply drop_duplicates_on_fresh in Hx. apply Hx. rewrite <-Hk. by left.
Qed.

Lemma drop_duplicates_on_complete seen l x :
  x ∈ l → key x ∉ seen → key x ∈ key <$> drop_duplicates_on key seen l.
Proof.
  revert seen. induction l as [|a l IH]; intros seen; simpl.
  - by intros ?%elem_of_nil.
  - intros [->|Hx]%elem_of_cons Hfresh.
    + rewrite decide_False by done. rewrite fmap_cons. by left.
    + case_decide as Hseen; [by apply IH|]. rewrite fmap_cons.
      destruct (decide (key x = key a)) as [->|Hne]; [by left|].
      right. apply IH; [done|]. by intros [?|?]%elem_of_cons.
Qed.

(** A kept element stands in the table above every element that has the
    key of an element kept after it. *)
Lemma drop_duplicates_on_order seen l i j x y :
  drop_duplicates_on key seen l !! i = Some x →
  drop_duplicates_on key seen l !! j = Some y → (i < j)%nat →
  ∃ a, l !! a = Some x ∧
       ∀ b z, l !! b = Some z → key z = key y → (a < b)%nat.
Proof.
  revert seen i j. induction l as [|a0 l IH]; intros seen i j; simpl.
  { by rewrite lookup_nil. }
  case_decide as Hseen.
  - intros Hx Hy Hij. destruct (IH seen i j Hx Hy Hij) as (a & Ha & Hfirst).
    exists (S a). split; [done|]. intros [|b] z Hz Hk; simpl in Hz.
    + injection Hz as <-.
      apply list_elem_of_lookup_2, drop_duplicates_on_fresh in Hy.
      destruct Hy. by rewrite <-Hk.
    + apply Hfirst in Hz; [lia|done].
  - destruct j as [|j]; [lia|]. simpl. intros Hx Hy Hij.
    pose proof (drop_duplicates_on_fresh _ _ _
                  (list_elem_of_lookup_2 _ _ _ Hy)) as Hfresh.
    apply not_elem_of_cons in Hfresh as [Hne _].
    destruct i as [|i]; simpl in Hx.
    + injection Hx as <-. exists 0%nat. split; [done|].
      intros [|b] z Hz Hk; [|lia]. simpl in Hz. injection Hz as <-. done.
    + destruct (IH _ i j Hx Hy ltac:(lia)) as (a & Ha & Hfirst).
      exists (S a). split; [done|]. intros [|b] z Hz Hk; simpl in Hz.
      * injection Hz as <-. done.
      * apply Hfirst in Hz; [lia|done].
Qed.

End Dedup.

Implicit Types (df : list srow) (cm : list (option string * Z)).

(** The code column, row by row. *)
Lemma add_codes_fmap df :
  add_codes df =
  (λ s, CRow s (code_of (categories (s_prov_var <$> df)) (s_prov_var s))) <$> df.
Proof.
  unfold add_codes, categorical_codes.
  generalize (categories (s_prov_var <$> df)). intros cats.
  induction df as [|s df IH]; [done|].
  rewrite !fmap_cons. simpl. by rewrite IH.
Qed.

Lemma class_map_elem df e :
  e ∈ class_map (add_codes df) ↔
  ∃ s, s ∈ df ∧
       e = (s_prov_var s, code_of (categories (s_prov_var <$> df)) (s_prov_var s)).
Proof.
  unfold class_map. rewrite add_codes_fmap. split.
  - intros (r & -> & Hr)%list_elem_of_fmap.
    pose proof (elem_of_sublist _ _ _ Hr
                  (drop_duplicates_on_sublist class_key [] _)) as Hr'.
    apply list_elem_of_fmap in Hr' as (s & -> & Hs). by exists s.
  - intros (s & Hs & ->).
    set (f := λ s, CRow s (code_of (categories (s_prov_var <$> df)) (s_prov_var s))).
    apply (drop_duplicates_on_complete class_key [] (f <$> df) (f s)).
    + by apply list_elem_of_fmap_2.
    + apply not_elem_of_nil.
Qed.

Lemma code_of_nonneg cats l :
  l ∈ cats → (0 ≤ code_of cats (Some l))%Z.
Proof.
  intros Hl. unfold code_of.
  destruct (list_find (λ c, c = l) cats) as [[i x]|] eqn:Hf; simpl; [lia|].
  apply list_find_None in Hf.
  by destruct (proj1 (Forall_forall _ _) Hf l).
Qed.

Lemma code_of_inj cats v1 v2 :
  NoDup cats →
  (∀ l, v1 = Some l → l ∈ cats) → (∀ l, v2 = Some l → l ∈ cats) →
  code_of cats v1 = code_of cats v2 → v1 = v2.
Proof.
  intros Hnd H1 H2.
  destruct v1 as [l1|], v2 as [l2|]; [| | |done].
  - destruct (code_of_elem cats l1 Hnd (H1 l1 eq_refl)) as (n1 & -> & Hn1).
    destruct (code_of_elem cats l2 Hnd (H2 l2 eq_refl)) as (n2 & -> & Hn2).
    intros Heq. assert (n1 = n2) as -> by lia. congruence.
  - pose proof (code_of_nonneg cats l1 (H1 l1 eq_refl)). intros Heq.
    change (code_of cats None) with (-1)%Z in Heq. lia.
  - pose proof (code_of_nonneg cats l2 (H2 l2 eq_refl)). intros Heq.
    change (code_of cats None) with (-1)%Z in Heq. lia.
Qed.

Lemma class_map_NoDup df : NoDup (class_map (add_codes df)).
Proof. apply drop_duplicates_on_NoDup. Qed.

Lemma class_map_NoDup_labels df : NoDup (class_map (add_codes df)).*1.
Proof.
  apply NoDup_fmap_fst; [|apply class_map_NoDup].
  intros v c1 c2 (s1 & _ & [= -> ->])%class_map_elem
    (s2 & _ & [= Hv ->])%class_map_elem. by rewrite Hv.
Qed.

Lemma class_map_NoDup_codes df : NoDup (class_map (add_codes df)).*2.
Proof.
  apply NoDup_fmap_2_strong; [|apply class_map_NoDup].
  intros e1 e2 (s1 & Hs1 & ->)%class_map_elem
    (s2 & Hs2 & ->)%class_map_elem. simpl. intros Hc.
  assert (s_prov_var s1 = s_prov_var s2) as Hv; [|by rewrite Hv].
  eapply code_of_inj; [apply categories_NoDup| | |exact Hc].
  - intros l Hl. apply categories_elem. rewrite <-Hl.
    by apply list_elem_of_fmap_2.
  - intros l Hl. apply categories_elem. rewrite <-Hl.
    by apply list_elem_of_fmap_2.
Qed.

(** Entries stand in the order of first appearance: of two entries, the
    label of the one listed first stands in some row of the table above
    every row that has the label of the other. *)
Lemma class_map_first_appearance df i j e1 e2 :
  class_map (add_codes df) !! i = Some e1 →
  class_map (add_codes df) !! j = Some e2 → (i < j)%nat →
  ∃ a s, df !! a = Some s ∧ s_prov_var s = e1.1 ∧
         ∀ b s', df !! b = Some s' → s_prov_var s' = e2.1 → (a < b)%nat.
Proof.
  unfold class_map. rewrite !list_lookup_fmap.
  intros (x & Hx & ->)%fmap_Some (y & Hy & ->)%fmap_Some Hij.
  destruct (drop_duplicates_on_order class_key [] _ i j x y Hx Hy Hij)
    as (a & Ha & Hfirst).
  rewrite add_codes_fmap in Ha. rewrite list_lookup_fmap in Ha.
  apply fmap_Some in Ha as (s & Hs & ->).
  exists a, s. split; [done|]. split; [done|].
  intros b s' Hs' Hlab. apply (Hfirst b
    (CRow s' (code_of (categories (s_prov_var <$> df)) (s_prov_var s')))).
  - rewrite add_codes_fmap, list_lookup_fmap, Hs'. done.
  - assert (y ∈ add_codes df) as Hyin.
    { eapply elem_of_sublist; [by eapply list_elem_of_lookup_2|].
      apply drop_duplicates_on_sublist. }
    rewrite add_codes_fmap in Hyin.
    apply list_elem_of_fmap in Hyin as (sy & -> & _).
    unfold class_key in *. simpl in *. by rewrite Hlab.
Qed.

(** X22.  The class map pairs labels and codes one to one: no label and no
    code occurs in two entries, every row of the table finds its label in
    it, every entry comes from a row, and the entries stand in the order in
    which the labels first appear in the table: of two entries, the label of
    the one listed first stands in some row above every row that has the
    label of the other. *)
Theorem class_map_one_to_one df :
  NoDup (class_map (add_codes df)).*1 ∧
  NoDup (class_map (add_codes df)).*2 ∧
  (∀ s, s ∈ df → ∃ c, (s_prov_var s, c) ∈ class_map (add_codes df)) ∧
  (∀ e, e ∈ class_map (add_codes df) → ∃ s, s ∈ df ∧ s_prov_var s = e.1) ∧
  class_map (add_codes df) `sublist_of` class_key <$> add_codes df ∧
  (∀ i j e1 e2,
     class_map (add_codes df) !! i = Some e1 →
     class_map (add_codes df) !! j = Some e2 → (i < j)%nat →
     ∃ a s, df !! a = Some s ∧ s_prov_var s = e1.1 ∧
            ∀ b s', df !! b = Some s' → s_prov_var s' = e2.1 → (a < b)%nat).
Proof.
  split; [apply class_map_NoDup_labels|].
  split; [apply class_map_NoDup_codes|]. split; [|split; [|split]].
  - intros s Hs. eexists. apply class_map_elem. by exists s.
  - intros e (s & Hs & ->)%class_map_elem. by exists s.
  - unfold class_map. apply fmap_sublist, drop_duplicates_on_sublist.
  - apply class_map_first_appearance.
Qed.

Lemma class_map_code_elem df c :
  Forall (λ s, is_Some (s_prov_var s)) df →
  c ∈ (class_map (add_codes df)).*2 ↔
  ∃ n, c = Z.of_nat n ∧ (n < length (categories (s_prov_var <$> df)))%nat.
Proof.
  intros Hall. rewrite list_elem_of_fmap. split.
  - intros (e & -> & (s & Hs & ->)%class_map_elem). simpl.
    destruct (proj1 (Forall_forall _ _) Hall s Hs) as [l Hl]. rewrite Hl.
    destruct (code_of_elem (categories (s_prov_var <$> df)) l
                (categories_NoDup _)) as (n & -> & Hn).
    { apply categories_elem. rewrite <-Hl. by apply list_elem_of_fmap_2. }
    exists n. split; [done|]. by eapply lookup_lt_Some.
  - intros (n & -> & [l Hn]%lookup_lt_is_Some).
    assert (Some l ∈ s_prov_var <$> df) as (s & Hl & Hs)%list_elem_of_fmap.
    { apply categories_elem. by eapply list_elem_of_lookup_2. }
    exists (s_prov_var s, code_of (categories (s_prov_var <$> df)) (s_prov_var s)).
    split; [|apply class_map_elem; by exists s]. simpl. rewrite <-Hl.
    symmetry. by apply code_of_position; [apply categories_NoDup|].
Qed.

(** X23.  When every row has a label, the codes of the class map are the
    numbers 0 to k-1, each once, and the class map has k entries, k being
    the number of distinct labels. *)
Theorem class_map_codes_are_dense df :
  Forall (λ s, is_Some (s_prov_var s)) df →
  (class_map (add_codes df)).*2 ≡ₚ
    Z.of_nat <$> seq 0 (length (categories (s_prov_var <$> df))) ∧
  length (class_map (add_codes df)) = length (categories (s_prov_var <$> df)).
Proof.
  intros Hall.
  assert ((class_map (add_codes df)).*2 ≡ₚ
            Z.of_nat <$> seq 0 (length (categories (s_prov_var <$> df))))
    as Hperm.
  { apply NoDup_Permutation.
    - apply class_map_NoDup_codes.
    - apply NoDup_fmap_2; [apply Nat2Z.inj'|apply NoDup_seq].
    - intros c. rewrite class_map_code_elem by done.
      rewrite list_elem_of_fmap. split.
      + intros (n & -> & Hn). exists n. split; [done|].
        apply elem_of_seq. lia.
      + intros (n & -> & Hn%elem_of_seq). exists n. split; [done|lia]. }
  split; [done|].
  rewrite <-(length_fmap snd), Hperm, length_fmap. apply length_seq.
Qed.

Lemma entries_elem cm l n :
  (l, n) ∈ entries cm ↔ (Some l, Z.of_nat n) ∈ cm.
Proof.
  unfold entries. rewrite list_elem_of_omap. split.
  - intros ([v c] & He & Hf). simpl in Hf.
    destruct v as [l'|]; [|done]. simpl in Hf.
    destruct (decide (0 ≤ c)%Z); [|done]. injection Hf as -> <-.
    by rewrite Z2Nat.id.
  - intros He. exists (Some l, Z.of_nat n). split; [done|]. simpl.
    rewrite decide_True by lia. by rewrite Nat2Z.id.
Qed.

Lemma entries_cons v c cm :
  entries ((v, c) :: cm) =
  match v with
  | Some l => if decide (0 ≤ c)%Z then (l, Z.to_nat c) :: entries cm
              else entries cm
  | None => entries cm
  end.
Proof. destruct v; [|done]. unfold entries. simpl. by case_decide. Qed.

Lemma entries_NoDup_codes cm : NoDup cm.*2 → NoDup (entries cm).*2.
Proof.
  induction cm as [|[v c] cm IH]; [constructor|].
  rewrite fmap_cons. intros [Hc Hnd]%NoDup_cons.
  rewrite entries_cons.
  destruct v as [l|]; simpl; [|by apply IH].
  destruct (decide (0 ≤ c)%Z); [|by apply IH].
  rewrite fmap_cons. apply NoDup_cons. split; [|by apply IH].
  intros ([l' n] & Hn & Hin%entries_elem)%list_elem_of_fmap. simpl in Hn.
  apply Hc. apply list_elem_of_fmap. exists (Some l', Z.of_nat n).
  split; [|done]. simpl. rewrite <-Hn. by rewrite Z2Nat.id.
Qed.

Lemma label_of_code_elem (cm : list (string * nat)) l code :
  NoDup cm.*2 → (l, code) ∈ cm → Predict.label_of_code cm code = Some l.
Proof.
  unfold Predict.label_of_code. intros Hnd Hin.
  destruct (list_find (λ c : string * nat, c.2 = code) cm) as [[i [l' c']]|] eqn:Hf.
  - apply list_find_Some in Hf as (Hi & Hc & _). simpl in Hc. subst c'.
    simpl. f_equal.
    apply list_elem_of_lookup in Hin as [j Hj].
    assert (cm.*2 !! i = Some code) as Hi2 by (by rewrite list_lookup_fmap, Hi).
    assert (cm.*2 !! j = Some code) as Hj2 by (by rewrite list_lookup_fmap, Hj).
    pose proof (NoDup_lookup _ _ _ _ Hnd Hi2 Hj2) as ->. congruence.
  - apply list_find_None in Hf.
    by destruct (proj1 (Forall_forall _ _) Hf (l, code) Hin).
Qed.

(** X24.  Decoding through the class map undoes the coding: for a row with
    label [l], looking up the row's code among the entries of the class map
    gives [l] back. *)
Theorem class_map_decodes df s l :
  s ∈ df → s_prov_var s = Some l →
  ∃ n, code_of (categories (s_prov_var <$> df)) (Some l) = Z.of_nat n ∧
       (l, n) ∈ entries (class_map (add_codes df)) ∧
       Predict.label_of_code (entries (class_map (add_codes df))) n = Some l.
Proof.
  intros Hs Hl.
  destruct (code_of_elem (categories (s_prov_var <$> df)) l
              (categories_NoDup _)) as (n & Hc & Hn).
  { apply categories_elem. rewrite <-Hl. by apply list_elem_of_fmap_2. }
  exists n. split; [done|].
  assert ((l, n) ∈ entries (class_map (add_codes df))) as Hin.
  { apply entries_elem, class_map_elem. exists s. split; [done|].
    by rewrite Hl, Hc. }
  split; [done|]. apply label_of_code_elem; [|done].
  apply entries_NoDup_codes, class_map_NoDup_codes.
Qed.

(** X25.  Adding the code column drops and reorders nothing: [X] holds the
    descriptions of the table in order, [y] the code of each row's label,
    and both are as long as the table. *)
Theorem X_y_follow_the_table df :
  c_base <$> add_codes df = df ∧
  X (add_codes df) = s_description <$> df ∧
  y (add_codes df) = categorical_codes (s_prov_var <$> df) ∧
  length (X (add_codes df)) = length df ∧
  length (y (add_codes df)) = length df.
Proof.
  unfold X, y. rewrite add_codes_fmap, <-!list_fmap_compose.
  split.
  { apply list_eq. intros i. rewrite list_lookup_fmap.
    by destruct (df !! i). }
  split; [done|].
  split; [unfold categorical_codes; by rewrite <-list_fmap_compose|].
  by rewrite !length_fmap.
Qed.

End ClassMapFacts.

(** * Further properties of the Descriptor Reporter and the Predictor *)
Module ReporterMore.
Import ListFacts Descriptors Reporter Coding CodingFacts ClassMapFacts.

Section Ranking.
Context {W : Type} (leb : W → W → bool).

Local Abbreviation sorted_desc := (sorted_desc leb).
Local Abbreviation top_entries := (top_entries leb).
Local Abbreviation top_descriptors := (top_descriptors leb).
Local Abbreviation report := (report leb).
Local Abbreviation tied := (tied leb).

(** X26.  The report raises exactly when the class map holds a code that is
    not a row index of the weight matrix; otherwise it has one item per
    entry of the class map. *)
Theorem report_raises_iff (class_map : list (string * nat))
    (names : list string) (matrix : list (list W)) :
  (report class_map names matrix = None ↔
   Exists (λ cl, (length matrix ≤ cl.2)%nat) class_map) ∧
  (∀ out, report class_map names matrix = Some out →
          length out = length class_map ∧ out.*1 = class_map.*1).
Proof.
  unfold Descriptors.report. split.
  - rewrite mapM_None, !Exists_exists.
    split; intros (cl & Hcl & H); exists cl; (split; [done|]).
    + destruct (matrix !! cl.2) as [ws|] eqn:Hws; [done|].
      by apply lookup_ge_None.
    + apply lookup_ge_None in H. by rewrite H.
  - intros out HF%mapM_Some. split; [symmetry; by eapply Forall2_length|].
    induction HF as [|cl o cm out Hcl _ IH]; [done|].
    rewrite !fmap_cons, IH. f_equal.
    destruct (matrix !! cl.2); [|done]. simpl in Hcl. by injection Hcl as <-.
Qed.

Lemma zip_fst_elem (names : list string) (ws : list W) e :
  e ∈ zip names ws → e.1 ∈ names.
Proof.
  revert ws. induction names as [|n names IH]; intros [|w ws]; simpl;
    try by intros ?%elem_of_nil.
  intros [->|He]%elem_of_cons; [by left|]. right. by eapply IH.
Qed.

Lemma zip_fst_sublist (names : list string) (ws : list W) :
  (zip names ws).*1 `sublist_of` names.
Proof.
  revert ws. induction names as [|n names IH]; intros [|w ws]; simpl;
    [done|done|apply sublist_nil_l|].
  apply sublist_skip, IH.
Qed.

(** X27.  The list of a class has 10 names, or as many as there are
    vocabulary entries with a weight when these are fewer; every name comes
    from the vocabulary, and no name is listed twice when the vocabulary has
    no repeated entry. *)
Theorem top_descriptors_slice (names : list string) (ws : list W) :
  length (top_descriptors names ws) =
    (10 `min` (length names `min` length ws))%nat ∧
  (∀ n, n ∈ top_descriptors names ws → n ∈ names) ∧
  (NoDup names → NoDup (top_descriptors names ws)).
Proof.
  unfold Descriptors.top_descriptors, Descriptors.top_entries.
  split; [|split].
  - rewrite length_fmap, length_take, sorted_desc_perm, length_zip_with. done.
  - intros n (e & -> & He)%list_elem_of_fmap.
    apply (zip_fst_elem names ws). rewrite <-(sorted_desc_perm leb).
    by eapply elem_of_sublist; [|apply sublist_take].
  - intros Hnd. eapply sublist_NoDup; [|apply fmap_sublist, sublist_take].
    rewrite sorted_desc_perm. eapply sublist_NoDup; [exact Hnd|].
    apply zip_fst_sublist.
Qed.

Hypothesis leb_trans : ∀ a b c, leb a b = true → leb b c = true → leb a c = true.

Lemma filter_take_prefix {A} (P : A → Prop) `{!∀ x, Decision (P x)} n (l : list A) :
  filter P (take n l) `prefix_of` filter P l.
Proof.
  rewrite <-(take_drop n l) at 2. rewrite filter_app. by apply prefix_app_r.
Qed.

(** X28.  Ties are broken by the vocabulary: among the entries that have one
    same weight, those listed for a class are the first ones in the order
    of the vocabulary, in that order. *)
Theorem ties_follow_vocabulary_order (names : list string) (ws : list W) w :
  filter (tied w) (top_entries names ws) `prefix_of`
  filter (tied w) (zip names ws).
Proof.
  unfold Descriptors.top_entries.
  rewrite <-(sorted_desc_stable leb leb_trans w (zip names ws)).
  apply filter_take_prefix.
Qed.

End Ranking.
End ReporterMore.

Module PredictorMore.
Import ListFacts Predict Predictor Frame Coding CodingFacts ClassMapFacts.

Section Model.
Context {X : Type} (vectorizer_transform : list string → X)
  (clf_predict : X → list nat).

Local Abbreviation result := (result vectorizer_transform clf_predict).
Local Abbreviation predictor := (predictor vectorizer_transform clf_predict).

(** X29.  The printed labels depend on which codes were predicted, not on
    their order or number: two inputs for which the same codes are predicted
    give the same output, and the output never has more labels than the
    class map has entries. *)
Theorem predictor_depends_on_code_set (class_map : list (string * nat))
    (input1 input2 : list string) :
  (∀ c, c ∈ result input1 ↔ c ∈ result input2) →
  predictor class_map input1 = predictor class_map input2 ∧
  (length (predictor class_map input1) ≤ length class_map)%nat.
Proof.
  intros Hc. split; [|apply predictor_length].
  unfold Predict.predictor. f_equal. apply list_filter_iff. intros c. apply Hc.
Qed.

(** X30.  With the class map of cell 20, one input text whose predicted code
    is the position of label [l] among the sorted labels of the training
    table is answered with exactly [l]. *)
Theorem predictor_single_text_decodes (df : list srow) t c l :
  result [t] = [c] → categories (s_prov_var <$> df) !! c = Some l →
  predictor (entries (Coding.class_map (add_codes df))) [t] = [l].
Proof.
  intros Hres Hc.
  assert (Some l ∈ s_prov_var <$> df) as (s & Hl & Hs)%list_elem_of_fmap.
  { apply categories_elem. by eapply list_elem_of_lookup_2. }
  apply (predictor_single vectorizer_transform clf_predict _ t c l).
  - apply entries_NoDup_codes, class_map_NoDup_codes.
  - done.
  - apply entries_elem, class_map_elem. exists s. split; [done|].
    rewrite <-Hl. f_equal. symmetry.
    by apply code_of_position; [apply categories_NoDup|].
Qed.

End Model.
End PredictorMore.

(** * More concrete runs *)
Module MoreExamples.
Import PyStr Leakage Frame Views Curated Training Coding Samples MoreSamples.

(** The model of cell 20 gives the class map the notebook printed. *)
Example class_map_as_printed :
  entries (class_map (add_codes full_red)) = class_map_red.
Proof. vm_compute. reflexivity. Qed.

Example small_red_coding :
  categories (s_prov_var <$> small_red) =
    ["Beaujolais_Gamay"; "California_Pinot Noir"; "Washington_Syrah"] ∧
  y (add_codes small_red) = [1; 2; 1; 0]%Z ∧
  class_map (add_codes small_red) =
    [ (Some "California_Pinot Noir", 1%Z); (Some "Washington_Syrah", 2%Z);
      (Some "Beaujolais_Gamay", 0%Z) ].
Proof. vm_compute. done. Qed.

(** Without the condition of X15 labels can collide. *)
Example labels_collide_on_underscore :
  label_of (Row 0 None (Some "a_b") (Some "c") [] : row Z) =
  label_of (Row 1 None (Some "a") (Some "b_c") [] : row Z).
Proof. reflexivity. Qed.

Lemma remove_set_unchanged_witness :
  remove_set (tokens "Pinot Noir") "Ripe  and round " = "Ripe  and round ".
Proof.
  apply LeakageMore.remove_set_unchanged.
  apply (proj1 (Forall_forall (λ t, t ∉ tokens "Pinot Noir")
                  (split "Ripe  and round "))).
  apply (bool_decide_unpack _). vm_compute. reflexivity.
Defined.

Lemma remove_set_tokens_witness :
  split (remove_set (tokens "Pinot Noir") "Ripe Pinot fruit  Noir") =
  filter (λ x, x ∉ tokens "Pinot Noir") (split "Ripe Pinot fruit  Noir").
Proof.
  apply (proj1 (LeakageMore.remove_set_tokens (tokens "Pinot Noir")
                  "Ripe Pinot fruit  Noir")).
  vm_compute. discriminate.
Defined.

Lemma leakage_filter_keeps_other_columns_witness :
  Forall2 (λ r r' : row Z, id r' = id r ∧ province r' = province r ∧
                   variety r' = variety r ∧ others r' = others r ∧
                   is_Some (description r'))
    (df_replace (cleaner raw_ex)) (base <$> tbl_ex).
Proof.
  apply PipelineMore.leakage_filter_keeps_other_columns.
  vm_compute. reflexivity.
Defined.

Lemma prepare_raises_iff_witness : prepare raw_nodesc = None.
Proof.
  apply (proj2 (PipelineMore.prepare_raises_iff raw_nodesc
                  (ex_intro _ pinot_a
                     (conj (list_elem_of_here _ _)
                        (conj (mk_is_Some _ _ eq_refl) (mk_is_Some _ _ eq_refl)))))).
  exists (Row 5 None (Some "Veneto") (Some "Corvina") [Num 87%Z]).
  split; [vm_compute; repeat constructor|].
  split; [split; by eexists|reflexivity].
Defined.

Lemma prepare_keeps_rows_witness :
  Forall2 (λ (r0 : row Z) lr,
             id (base lr) = id r0 ∧
             province (base lr) = replace_punct <$> province r0 ∧
             variety (base lr) = replace_punct <$> variety r0 ∧
             others (base lr) = replace_cell <$> others r0)
    (cleaner raw_ex) tbl_ex.
Proof.
  apply PipelineMore.prepare_keeps_rows. vm_compute. reflexivity.
Defined.

Lemma prepared_description_no_punct_witness :
  ∃ d, description (base row_syrah) = Some d ∧ no_punct d.
Proof.
  apply (PipelineMore.prepared_description_no_punct raw_ex tbl_ex row_syrah);
    [vm_compute; reflexivity | vm_compute; repeat constructor].
Defined.

Lemma cleaner_keeps_first_witness :
  ∃ l1 l2, raw_ex = (l1 ++ pinot_first :: l2)%list ∧
           (key pinot_first ∉ key <$> l1).
Proof.
  apply PreparationMore.cleaner_keeps_first.
  vm_compute. repeat constructor.
Defined.

Lemma cleaner_idempotent_witness : cleaner clean_ex = clean_ex.
Proof.
  apply (proj1 (PreparationMore.cleaner_idempotent clean_ex)).
  - apply (bool_decide_unpack _). vm_compute. reflexivity.
  - repeat constructor; by eexists.
Defined.

Lemma label_determines_fields_witness :
  province pinot_a = province pinot_b ∧ variety pinot_a = variety pinot_b.
Proof.
  apply (PreparationMore.label_determines_fields pinot_a pinot_b
           "California" "California" "California_Pinot Noir");
    reflexivity.
Defined.

Lemma df_select_same_entries_witness :
  df_select tbl_ex ["Washington_Syrah"; "California_Pinot Noir"] =
  df_select tbl_ex
    ["California_Pinot Noir"; "Washington_Syrah"; "California_Pinot Noir"].
Proof.
  apply SelectorMore.df_select_same_entries.
  intros l. rewrite !elem_of_cons, !elem_of_nil. tauto.
Defined.

Lemma training_tables_disjoint_witness :
  (project row_pinot ∉ df_white tbl_ex) ∧ (project row_pinot ∉ df_spark tbl_ex).
Proof.
  apply (proj1 (SelectorMore.training_tables_disjoint tbl_ex (project row_pinot))).
  vm_compute. repeat constructor.
Defined.

Lemma df_select_ignores_punctuated_entries_witness :
  df_select tbl_ex selected_white =
  df_select tbl_ex (filter no_punct selected_white).
Proof.
  apply (SelectorMore.df_select_ignores_punctuated_entries raw_ex).
  vm_compute. reflexivity.
Defined.

Lemma codes_decode_witness :
  ∃ n, categorical_codes (s_prov_var <$> small_red) !! 1%nat =
         Some (Z.of_nat n) ∧
       categories (s_prov_var <$> small_red) !! n = Some "Washington_Syrah" ∧
       (n < length (categories (s_prov_var <$> small_red)))%nat.
Proof.
  apply (CodingFacts.codes_decode (s_prov_var <$> small_red) 1
           (Some "Washington_Syrah")).
  reflexivity.
Defined.

Lemma codes_dense_witness :
  ∃ i l, (s_prov_var <$> small_red) !! i = Some (Some l) ∧
         categorical_codes (s_prov_var <$> small_red) !! i =
           Some (Z.of_nat 0).
Proof.
  apply CodingFacts.codes_dense. vm_compute. lia.
Defined.

Lemma codes_monotone_witness :
  (String_as_OT.lt "California_Pinot Noir" "Washington_Syrah" ↔ (1 < 2)%Z) ∧
  ("California_Pinot Noir" = "Washington_Syrah" ↔ 1%Z = 2%Z).
Proof.
  apply (CodingFacts.codes_monotone (s_prov_var <$> small_red) 0 1);
    reflexivity.
Defined.

Lemma class_map_one_to_one_witness :
  ∃ c, (Some "Beaujolais_Gamay", c) ∈ class_map (add_codes small_red).
Proof.
  apply (proj1 (proj2 (proj2 (ClassMapFacts.class_map_one_to_one small_red)))
           (SRow 9 (Some "Fruity and light") (Some "Beaujolais_Gamay"))).
  vm_compute. repeat constructor.
Defined.

Lemma class_map_codes_are_dense_witness :
  (class_map (add_codes small_red)).*2 ≡ₚ
    Z.of_nat <$> seq 0 (length (categories (s_prov_var <$> small_red))) ∧
  length (class_map (add_codes small_red)) =
    length (categories (s_prov_var <$> small_red)).
Proof.
  apply ClassMapFacts.class_map_codes_are_dense.
  repeat constructor; by eexists.
Defined.

Lemma class_map_decodes_witness :
  ∃ n, code_of (categories (s_prov_var <$> small_red))
         (Some "Washington_Syrah") = Z.of_nat n ∧
       ("Washington_Syrah", n) ∈ entries (class_map (add_codes small_red)) ∧
       Predict.label_of_code (entries (class_map (add_codes small_red))) n =
         Some "Washington_Syrah".
Proof.
  apply (ClassMapFacts.class_map_decodes small_red
           (SRow 4 (Some "A smoky Syrah; Pinot like finish ")
              (Some "Washington_Syrah")));
    [vm_compute; repeat constructor | reflexivity].
Defined.

Lemma report_raises_iff_witness :
  Descriptors.report Z.leb class_map_bad names_ex matrix_ex = None.
Proof.
  apply (proj1 (ReporterMore.report_raises_iff Z.leb class_map_bad names_ex
                  matrix_ex)).
  vm_compute. apply Exists_cons_tl, Exists_cons_hd. lia.
Defined.

Lemma top_descriptors_slice_witness :
  NoDup (Descriptors.top_descriptors Z.leb names_ex [-3; -1; -2]%Z).
Proof.
  apply (proj2 (proj2 (ReporterMore.top_descriptors_slice Z.leb names_ex
                         [-3; -1; -2]%Z))).
  apply (bool_decide_unpack _). vm_compute. reflexivity.
Defined.

Lemma ties_follow_vocabulary_order_witness :
  filter (Descriptors.tied Z.leb (-655)%Z)
    (Descriptors.top_entries Z.leb names_ex
       [-610; -622; -630; -641; -655; -655; -660; -671; -680; -690; -720; -750]%Z)
  `prefix_of`
  filter (Descriptors.tied Z.leb (-655)%Z)
    (zip names_ex
       [-610; -622; -630; -641; -655; -655; -660; -671; -680; -690; -720; -750]%Z).
Proof.
  apply (ReporterMore.ties_follow_vocabulary_order Z.leb).
  intros a b c. lia.
Defined.

Lemma predictor_depends_on_code_set_witness :
  Predict.predictor stub_transform stub_predict class_map_red [dark; bright] =
  Predict.predictor stub_transform stub_predict class_map_red [bright; dark] ∧
  (length (Predict.predictor stub_transform stub_predict class_map_red
             [dark; bright]) ≤ length class_map_red)%nat.
Proof.
  apply PredictorMore.predictor_depends_on_code_set.
  intros c. change (c ∈ [13; 3]%nat ↔ c ∈ [3; 13]%nat).
  rewrite !elem_of_cons, !elem_of_nil. tauto.
Defined.

Lemma predictor_single_text_decodes_witness :
  Predict.predictor stub_transform stub_predict
    (entries (class_map (add_codes full_red))) [bright] =
  ["California_Pinot Noir"].
Proof.
  apply (PredictorMore.predictor_single_text_decodes stub_transform
           stub_predict full_red bright 3);
    vm_compute; reflexivity.
Defined.

End MoreExamples.
